(** * Glycerol conversion calculator: the impact-scoring model of slider.py

    A shallow embedding of [smooth_transition], [calculate_parameter_impact]
    and [calculate_total_conversion] together with the [OPTIMAL_RANGES]
    table, and the properties of the model that the specification states.

    Numbers are modelled as mathematical reals ([R]): rounding, overflow,
    infinities and NaN of IEEE-754 doubles are outside this model.  Python
    exceptions are modelled by an explicit error type; dictionaries by
    association lists that keep the insertion order Python iterates in. *)

From Stdlib Require Import Reals Lra Lia List String Permutation.
Import ListNotations.

Local Open Scope string_scope.
Local Open Scope list_scope.
Local Open Scope R_scope.

(** ** Exceptions *)

Inductive exn : Type :=
| KeyError (key : string)
| ZeroDivisionError
| ValueError.

Inductive result (A : Type) : Type :=
| Ok (a : A)
| Raise (e : exn).

Arguments Ok {A} a.
Arguments Raise {A} e.

Definition bind {A B : Type} (c : result A) (k : A -> result B) : result B :=
  match c with
  | Ok a => k a
  | Raise e => Raise e
  end.

Notation "x <- c ;; k" := (bind c (fun x => k))
  (at level 61, c at next level, right associativity).

(** ** Python primitives on numbers *)

(** [a / b] on Python numbers: a zero divisor raises. *)
Definition py_div (a b : R) : result R :=
  if Req_dec_T b 0 then Raise ZeroDivisionError else Ok (a / b).

Definition Rltb (x y : R) : bool := if Rlt_dec x y then true else false.

(** [sum(xs)]: left fold starting from 0. *)
Definition py_sum (xs : list R) : R := fold_left Rplus xs 0.

(** [max(xs)] and [min(xs)]: an empty sequence raises [ValueError]. *)
Definition py_max (xs : list R) : result R :=
  match xs with
  | [] => Raise ValueError
  | x :: rest => Ok (fold_left Rmax rest x)
  end.

Definition py_min (xs : list R) : result R :=
  match xs with
  | [] => Raise ValueError
  | x :: rest => Ok (fold_left Rmin rest x)
  end.

(** [scipy.special.expit]: the logistic sigmoid. *)
Definition expit (z : R) : R := 1 / (1 + exp (- z)).

(** [numpy.clip(a, a_min, a_max)] is [minimum(a_max, maximum(a, a_min))]. *)
Definition np_clip (a a_min a_max : R) : R := Rmin a_max (Rmax a a_min).

(** ** Dictionaries *)

Definition dict (V : Type) : Type := list (string * V).

Definition keys {V : Type} (d : dict V) : list string := map fst d.

Definition values {V : Type} (d : dict V) : list V := map snd d.

(** [d[k]]: the value stored under [k], or [KeyError]. *)
Fixpoint getitem {V : Type} (d : dict V) (k : string) : result V :=
  match d with
  | [] => Raise (KeyError k)
  | (k', v) :: d' => if String.eqb k' k then Ok v else getitem d' k
  end.

(** A Python dict holds each key once. *)
Definition dict_wf {V : Type} (d : dict V) : Prop := NoDup (keys d).

(** ** The configuration table *)

Record param_info : Type := mk_param_info {
  min_val : R;
  max_val : R;
  optimal : R;
  weight : R;
  sensitivity : R;
  base_impact : R
}.

Definition OPTIMAL_RANGES : dict param_info :=
  [ ("t2", mk_param_info 195 205 200 0.27 0.217985 30);
    ("t3", mk_param_info 195 205 200 0.25 0.136957 25);
    ("t4", mk_param_info 195 205 200 0.40 0.181967 25);
    ("t1", mk_param_info 190 200 195 0.10 0.069769 10);
    ("t5", mk_param_info 190 200 195 0.05 0.003058 10);
    ("lhsv", mk_param_info 0.5 0.7 0.6 0.05 0.016678 5);
    ("h2gly_ratio", mk_param_info 6 7 6.5 0.05 0.004925 5);
    ("liquid_feed", mk_param_info 50 150 100 0.05 0.000073 5);
    ("hydrogen_flow", mk_param_info 300 600 450 0.05 0.000058 5);
    ("top_pressure", mk_param_info 20 40 30 0.05 0.003176 5);
    ("bottom_pressure", mk_param_info 15 35 25 0.05 0.001230 5);
    ("feed_ph", mk_param_info 6 8 7 0.05 0.010348 5) ].

(** The twelve parameter names, in table order. *)
Definition PARAMETER_NAMES : list string := keys OPTIMAL_RANGES.

(** ** The model *)

Definition smooth_transition (x center sensitivity : R) : R :=
  expit (- (x - center) * sensitivity).

Definition calculate_parameter_impact (value : R) (info : param_info)
  : result R :=
  let optimal := optimal info in
  let min_val := min_val info in
  let max_val := max_val info in
  let sensitivity := sensitivity info in
  let base_impact := base_impact info in
  let range_size := max_val - min_val in
  normalized_distance <- py_div (Rabs (value - optimal)) range_size ;;
  scale <- py_div 1 sensitivity ;;
  let base_effect := smooth_transition normalized_distance 0 scale in
  let impact := base_impact * base_effect in
  if (Rltb value min_val || Rltb max_val value)%bool then
    ratio <- py_div (Rabs (value - optimal)) range_size ;;
    let excess := Rmin ratio 1 in
    Ok (impact * (1 - 0.2 * excess))
  else
    Ok impact.

(** The dict comprehension
    [{name: calculate_parameter_impact(value, OPTIMAL_RANGES[name])
      for name, value in params.items()}]. *)
Fixpoint impacts_of (items : dict R) : result (dict R) :=
  match items with
  | [] => Ok []
  | (name, value) :: rest =>
      info <- getitem OPTIMAL_RANGES name ;;
      impact <- calculate_parameter_impact value info ;;
      tail <- impacts_of rest ;;
      Ok ((name, impact) :: tail)
  end.

Definition calculate_total_conversion (params : dict R)
  : result (R * dict R) :=
  top_pressure <- getitem params "top_pressure" ;;
  bottom_pressure <- getitem params "bottom_pressure" ;;
  let pressure_diff := top_pressure - bottom_pressure in
  t1 <- getitem params "t1" ;;
  t2 <- getitem params "t2" ;;
  t3 <- getitem params "t3" ;;
  t4 <- getitem params "t4" ;;
  t5 <- getitem params "t5" ;;
  let temps := [t1; t2; t3; t4; t5] in
  avg_temperature <- py_div (py_sum temps) (INR (List.length temps)) ;;
  hottest <- py_max temps ;;
  coldest <- py_min temps ;;
  let temp_range := hottest - coldest in
  impacts <- impacts_of params ;;
  let base_conversion := 60 in
  let total_impact := py_sum (values impacts) in
  let conversion := base_conversion + total_impact in
  let conversion := np_clip conversion 0 100 in
  Ok (conversion, impacts).

(** [calculate_total_conversion] with the three derived aggregates
    (pressure differential, average temperature, temperature range) and the
    lookups that feed them removed. *)
Definition calculate_total_conversion_no_aggregates (params : dict R)
  : result (R * dict R) :=
  impacts <- impacts_of params ;;
  let base_conversion := 60 in
  let total_impact := py_sum (values impacts) in
  let conversion := base_conversion + total_impact in
  let conversion := np_clip conversion 0 100 in
  Ok (conversion, impacts).

(** ** Intermediate values of [calculate_parameter_impact]

    The locals [range_size], [normalized_distance] and [base_effect] of the
    function, as functions of its arguments, for use in statements. *)

Definition range_size (info : param_info) : R := max_val info - min_val info.

Definition normalized_distance (value : R) (info : param_info) : R :=
  Rabs (value - optimal info) / range_size info.

Definition base_effect (value : R) (info : param_info) : R :=
  smooth_transition (normalized_distance value info) 0 (1 / sensitivity info).

(** ** Predicates used in the statements *)

(** A specification the model can evaluate: a proper range and a positive
    sensitivity. *)
Definition valid_spec (info : param_info) : Prop :=
  min_val info < max_val info /\ 0 < sensitivity info.

(** The seven names read by the derived aggregates. *)
Definition AGGREGATE_NAMES : list string :=
  ["top_pressure"; "bottom_pressure"; "t1"; "t2"; "t3"; "t4"; "t5"].

(** The five names read only by the comprehension. *)
Definition OTHER_NAMES : list string :=
  ["lhsv"; "h2gly_ratio"; "liquid_feed"; "hydrogen_flow"; "feed_ph"].

(** A complete parameter set: exactly the twelve names, each once. *)
Definition complete (params : dict R) : Prop :=
  Permutation (keys params) PARAMETER_NAMES.

(** The parameter set of [main] with every slider at the optimal value. *)
Definition optimal_params : dict R :=
  [ ("t2", 200); ("t3", 200); ("t4", 200); ("t1", 195); ("t5", 195);
    ("lhsv", 0.6); ("h2gly_ratio", 6.5); ("liquid_feed", 100);
    ("hydrogen_flow", 450); ("top_pressure", 30); ("bottom_pressure", 25);
    ("feed_ph", 7) ].

(** The same set with the entry for ["lhsv"] left out. *)
Definition params_without_lhsv : dict R :=
  [ ("t2", 200); ("t3", 200); ("t4", 200); ("t1", 195); ("t5", 195);
    ("h2gly_ratio", 6.5); ("liquid_feed", 100);
    ("hydrogen_flow", 450); ("top_pressure", 30); ("bottom_pressure", 25);
    ("feed_ph", 7) ].

(** Two specifications that differ in their sensitivity only. *)
Definition same_but_sensitivity (a b : param_info) : Prop :=
  min_val a = min_val b /\ max_val a = max_val b /\ optimal a = optimal b /\
  weight a = weight b /\ base_impact a = base_impact b.

(** The impact of the parameter [name] under [params]:
    [calculate_parameter_impact(params[name], OPTIMAL_RANGES[name])]. *)
Definition parameter_impact_of (params : dict R) (name : string) : result R :=
  value <- getitem params name ;;
  info <- getitem OPTIMAL_RANGES name ;;
  calculate_parameter_impact value info.

(** The payload of a result, 0 for an exception; used only where the result
    is known to be [Ok]. *)
Definition payload (r : result R) : R :=
  match r with
  | Ok x => x
  | Raise _ => 0
  end.

(** The breakdown the comprehension builds when nothing raises. *)
Definition breakdown (params : dict R) (items : dict R) : dict R :=
  map (fun item => (fst item, payload (parameter_impact_of params (fst item))))
      items.

(** Half of every [base_impact], in the order of [optimal_params]. *)
Definition optimal_impacts : dict R :=
  [ ("t2", 15); ("t3", 12.5); ("t4", 12.5); ("t1", 5); ("t5", 5);
    ("lhsv", 2.5); ("h2gly_ratio", 2.5); ("liquid_feed", 2.5);
    ("hydrogen_flow", 2.5); ("top_pressure", 2.5); ("bottom_pressure", 2.5);
    ("feed_ph", 2.5) ].

Definition optimal_impacts_without_lhsv : dict R :=
  [ ("t2", 15); ("t3", 12.5); ("t4", 12.5); ("t1", 5); ("t5", 5);
    ("h2gly_ratio", 2.5); ("liquid_feed", 2.5);
    ("hydrogen_flow", 2.5); ("top_pressure", 2.5); ("bottom_pressure", 2.5);
    ("feed_ph", 2.5) ].

(** The optimal set with the entry for ["t1"] left out. *)
Definition params_without_t1 : dict R :=
  [ ("t2", 200); ("t3", 200); ("t4", 200); ("t5", 195);
    ("lhsv", 0.6); ("h2gly_ratio", 6.5); ("liquid_feed", 100);
    ("hydrogen_flow", 450); ("top_pressure", 30); ("bottom_pressure", 25);
    ("feed_ph", 7) ].

(** ** Concrete specifications used as examples *)

(** The table's row for ["t2"]. *)
Definition t2_spec : param_info :=
  mk_param_info 195 205 200 0.27 0.217985 30.

(** The row for ["t2"] with [base_impact] set to 0. *)
Definition zero_impact_spec : param_info :=
  mk_param_info 195 205 200 0.27 0.217985 0.

(** Two rows that differ in sensitivity only: 1 and 2. *)
Definition slow_spec : param_info := mk_param_info 0 2 1 0.05 1 10.

Definition sharp_spec : param_info := mk_param_info 0 2 1 0.05 2 10.

(** ** The caller: [main]

    [main] reads twelve sliders, builds [params] from them, calls
    [calculate_total_conversion] and shows the conversion and the twelve
    entries of the breakdown.  The widgets and the text formatting are left
    out; the data flow is kept. *)

(** One [st.slider(label, min_value, max_value, value, step)] call. *)
Record slider : Type := mk_slider {
  slider_min : R;
  slider_max : R;
  slider_default : R;
  slider_step : option R
}.

(** The twelve slider calls, keyed by the variable each one is bound to. *)
Definition SLIDERS : dict slider :=
  [ ("t2", mk_slider 180 220 200 None);
    ("t3", mk_slider 180 220 200 None);
    ("t4", mk_slider 180 220 200 None);
    ("t1", mk_slider 180 220 195 None);
    ("t5", mk_slider 180 220 195 None);
    ("lhsv", mk_slider 0.4 0.8 0.6 (Some 0.1));
    ("h2gly_ratio", mk_slider 5 8 6.5 (Some 0.1));
    ("liquid_feed", mk_slider 50 150 100 None);
    ("hydrogen_flow", mk_slider 300 600 450 (Some 10));
    ("top_pressure", mk_slider 20 40 30 None);
    ("bottom_pressure", mk_slider 15 35 25 None);
    ("feed_ph", mk_slider 6 8 7 (Some 0.1)) ].

(** The dict literal [params = {'t2': t2, ..., 'feed_ph': feed_ph}]. *)
Definition main_params
  (t2 t3 t4 t1 t5 lhsv h2gly_ratio liquid_feed hydrogen_flow
   top_pressure bottom_pressure feed_ph : R) : dict R :=
  [ ("t2", t2); ("t3", t3); ("t4", t4); ("t1", t1); ("t5", t5);
    ("lhsv", lhsv); ("h2gly_ratio", h2gly_ratio);
    ("liquid_feed", liquid_feed); ("hydrogen_flow", hydrogen_flow);
    ("top_pressure", top_pressure); ("bottom_pressure", bottom_pressure);
    ("feed_ph", feed_ph) ].

(** The names whose impact [main] reads, in the order it shows them. *)
Definition DISPLAYED_NAMES : list string :=
  [ "t2"; "t3"; "t4"; "t1"; "t5";
    "lhsv"; "h2gly_ratio"; "liquid_feed"; "hydrogen_flow";
    "top_pressure"; "bottom_pressure"; "feed_ph" ].

(** [impacts[name]] for each name in turn; the first failure ends it. *)
Fixpoint read_impacts (impacts : dict R) (names : list string)
  : result (list R) :=
  match names with
  | [] => Ok []
  | name :: rest =>
      shown <- getitem impacts name ;;
      tail <- read_impacts impacts rest ;;
      Ok (shown :: tail)
  end.

(** The values [main] puts on the screen: the conversion and the twelve
    impacts. *)
Definition main_report
  (t2 t3 t4 t1 t5 lhsv h2gly_ratio liquid_feed hydrogen_flow
   top_pressure bottom_pressure feed_ph : R) : result (R * list R) :=
  let params :=
    main_params t2 t3 t4 t1 t5 lhsv h2gly_ratio liquid_feed hydrogen_flow
                top_pressure bottom_pressure feed_ph in
  outcome <- calculate_total_conversion params ;;
  let conversion := fst outcome in
  let impacts := snd outcome in
  shown <- read_impacts impacts DISPLAYED_NAMES ;;
  Ok (conversion, shown).

(** ** Further predicates and search functions used in statements *)

Definition has_key {V : Type} (d : dict V) (k : string) : bool :=
  existsb (String.eqb k) (keys d).

(** The first of the seven aggregate names, in the order the function reads
    them, that [params] does not hold. *)
Definition first_missing_aggregate (params : dict R) : option string :=
  find (fun k => negb (has_key params k)) AGGREGATE_NAMES.

(** The first key of [params], in iteration order, that is no row of the
    table. *)
Definition first_unknown_key (params : dict R) : option string :=
  find (fun k => negb (has_key OPTIMAL_RANGES k)) (keys params).

(** [value] lies in the operating window of [info]. *)
Definition in_window (value : R) (info : param_info) : Prop :=
  min_val info <= value <= max_val info.

(** [near] lies between the optimum and [far], on either side. *)
Definition between_optimal (near far : R) (info : param_info) : Prop :=
  optimal info <= near <= far \/ far <= near <= optimal info.

(** The optimum lies in the operating window. *)
Definition optimal_in_window (info : param_info) : Prop :=
  min_val info <= optimal info <= max_val info.

(** Two parameter sets with the same keys in the same order, the values of
    the first between the row's optimum and the values of the second. *)
Definition closer_params (near far : dict R) : Prop :=
  Forall2 (fun a b =>
             fst a = fst b /\
             exists info,
               getitem OPTIMAL_RANGES (fst a) = Ok info /\
               between_optimal (snd a) (snd b) info)
          near far.

(** The names whose slider range is the operating window itself. *)
Definition WINDOW_SLIDER_NAMES : list string :=
  ["liquid_feed"; "hydrogen_flow"; "top_pressure"; "bottom_pressure";
   "feed_ph"].

(** Every slider of [main] at the upper end of its row's window. *)
Definition upper_params : dict R :=
  main_params 205 205 205 200 200 0.7 7 150 600 40 35 8.

(** [optimal_params] listed in reverse order. *)
Definition optimal_params_reversed : dict R := rev optimal_params.

(** The optimal set with an entry under a name the table does not have. *)
Definition params_with_stray_key : dict R :=
  optimal_params ++ [("catalyst_age", 3)].

(** A row with a zero-width window, and one with sensitivity 0. *)
Definition flat_window_spec : param_info :=
  mk_param_info 200 200 200 0.27 0.217985 30.

Definition zero_sensitivity_spec : param_info :=
  mk_param_info 195 205 200 0.27 0 30.

(** ** The sigmoid *)

Section Sigmoid.

Lemma expit_denominator_pos (z : R) : 0 < 1 + exp (- z).
Proof. pose proof (exp_pos (- z)). lra. Qed.

Lemma expit_times_denominator (z : R) : expit z * (1 + exp (- z)) = 1.
Proof.
  unfold expit. pose proof (expit_denominator_pos z). field. lra.
Qed.

Lemma expit_pos (z : R) : 0 < expit z.
Proof.
  pose proof (expit_denominator_pos z).
  pose proof (expit_times_denominator z).
  destruct (Rle_or_gt (expit z) 0); [nra | lra].
Qed.

Lemma expit_lt_1 (z : R) : expit z < 1.
Proof.
  pose proof (exp_pos (- z)).
  pose proof (expit_times_denominator z).
  pose proof (expit_pos z). nra.
Qed.

Lemma expit_0 : expit 0 = 1 / 2.
Proof. unfold expit. rewrite Ropp_0, exp_0. lra. Qed.

Lemma expit_increasing (a b : R) : a < b -> expit a < expit b.
Proof.
  intros Hab.
  assert (exp (- b) < exp (- a)) by (apply exp_increasing; lra).
  pose proof (exp_pos (- b)).
  pose proof (expit_times_denominator a).
  pose proof (expit_times_denominator b).
  pose proof (expit_pos a). pose proof (expit_pos b). nra.
Qed.

Lemma expit_nonpos_le_half (z : R) : z <= 0 -> expit z <= 1 / 2.
Proof.
  intros [Hz | ->].
  - rewrite <- expit_0. left. now apply expit_increasing.
  - rewrite expit_0. lra.
Qed.

Lemma expit_neg_lt_half (z : R) : z < 0 -> expit z < 1 / 2.
Proof. intros Hz. rewrite <- expit_0. now apply expit_increasing. Qed.

Lemma smooth_transition_center (x s : R) : smooth_transition x x s = 1 / 2.
Proof.
  unfold smooth_transition.
  replace (- (x - x) * s) with 0 by ring. apply expit_0.
Qed.

End Sigmoid.

(** ** One parameter *)

Section ParameterImpact.

Variable info : param_info.
Hypothesis Hvalid : valid_spec info.

Lemma py_div_range (a : R) :
  py_div a (range_size info) = Ok (a / range_size info).
Proof.
  unfold py_div, range_size. destruct Hvalid as [Hr _].
  destruct (Req_dec_T (max_val info - min_val info) 0); [lra | reflexivity].
Qed.

Lemma py_div_sensitivity (a : R) :
  py_div a (sensitivity info) = Ok (a / sensitivity info).
Proof.
  unfold py_div. destruct Hvalid as [_ Hs].
  destruct (Req_dec_T (sensitivity info) 0); [lra | reflexivity].
Qed.

Lemma distance_nonneg (value : R) : 0 <= normalized_distance value info.
Proof.
  unfold normalized_distance, range_size. destruct Hvalid as [Hr _].
  apply Rmult_le_pos; [apply Rabs_pos |].
  left. apply Rinv_0_lt_compat. lra.
Qed.

Lemma distance_zero_iff (value : R) :
  normalized_distance value info = 0 <-> value = optimal info.
Proof.
  unfold normalized_distance, range_size. destruct Hvalid as [Hr _]. split.
  - intros H0.
    assert (Habs : Rabs (value - optimal info) = 0).
    { apply Rmult_eq_reg_r with (/ (max_val info - min_val info)).
      - unfold Rdiv in H0. rewrite H0. ring.
      - apply Rinv_neq_0_compat. lra. }
    destruct (Req_dec (value - optimal info) 0) as [E | N]; [lra |].
    apply Rabs_no_R0 in N. contradiction.
  - intros ->. replace (optimal info - optimal info) with 0 by ring.
    rewrite Rabs_R0. unfold Rdiv. ring.
Qed.

Lemma scale_pos : 0 < 1 / sensitivity info.
Proof.
  destruct Hvalid as [_ Hs]. unfold Rdiv. rewrite Rmult_1_l.
  now apply Rinv_0_lt_compat.
Qed.

Lemma base_effect_pos (value : R) : 0 < base_effect value info.
Proof. apply expit_pos. Qed.

Lemma base_effect_le_half (value : R) : base_effect value info <= 1 / 2.
Proof.
  unfold base_effect, smooth_transition. apply expit_nonpos_le_half.
  pose proof (distance_nonneg value). pose proof scale_pos. nra.
Qed.

Lemma base_effect_lt_half (value : R) :
  value <> optimal info -> base_effect value info < 1 / 2.
Proof.
  intros Hne. unfold base_effect, smooth_transition.
  apply expit_neg_lt_half.
  pose proof (distance_nonneg value) as Hd. pose proof scale_pos.
  assert (normalized_distance value info <> 0)
    by (rewrite distance_zero_iff; exact Hne).
  nra.
Qed.

(** What the function returns on a valid specification, branch by
    branch. *)
Lemma calculate_parameter_impact_in_range (value : R) :
  min_val info <= value <= max_val info ->
  calculate_parameter_impact value info =
    Ok (base_impact info * base_effect value info).
Proof.
  intros [Hlo Hhi]. unfold calculate_parameter_impact.
  fold (range_size info). rewrite py_div_range, py_div_sensitivity. simpl.
  unfold Rltb.
  destruct (Rlt_dec value (min_val info)); [lra |].
  destruct (Rlt_dec (max_val info) value); [lra |].
  reflexivity.
Qed.

Lemma calculate_parameter_impact_outside (value : R) :
  value < min_val info \/ max_val info < value ->
  calculate_parameter_impact value info =
    Ok (base_impact info * base_effect value info
        * (1 - 0.2 * Rmin (normalized_distance value info) 1)).
Proof.
  intros Hout. unfold calculate_parameter_impact.
  fold (range_size info). rewrite py_div_range, py_div_sensitivity. simpl.
  unfold Rltb.
  destruct (Rlt_dec value (min_val info));
    destruct (Rlt_dec (max_val info) value); simpl;
    try reflexivity.
  lra.
Qed.

Lemma penalty_bounds (value : R) :
  0.8 <= 1 - 0.2 * Rmin (normalized_distance value info) 1 <= 1.
Proof.
  pose proof (distance_nonneg value) as Hd.
  unfold Rmin. destruct (Rle_dec (normalized_distance value info) 1); lra.
Qed.

(** The returned impact is the in-range impact scaled by a factor in
    [0.8, 1]; the factor is 1 in range and at the optimum. *)
Lemma calculate_parameter_impact_factor (value : R) :
  exists factor,
    calculate_parameter_impact value info =
      Ok (base_impact info * base_effect value info * factor) /\
    0.8 <= factor <= 1 /\
    (value = optimal info -> factor = 1).
Proof.
  destruct (Rlt_dec value (min_val info)) as [Hlo | Hlo];
    [| destruct (Rlt_dec (max_val info) value) as [Hhi | Hhi]].
  - exists (1 - 0.2 * Rmin (normalized_distance value info) 1).
    split; [| split].
    + apply calculate_parameter_impact_outside. now left.
    + apply penalty_bounds.
    + intros Hopt. apply distance_zero_iff in Hopt. rewrite Hopt.
      unfold Rmin. destruct (Rle_dec 0 1); lra.
  - exists (1 - 0.2 * Rmin (normalized_distance value info) 1).
    split; [| split].
    + apply calculate_parameter_impact_outside. now right.
    + apply penalty_bounds.
    + intros Hopt. apply distance_zero_iff in Hopt. rewrite Hopt.
      unfold Rmin. destruct (Rle_dec 0 1); lra.
  - exists 1. split; [| split]; [| lra | reflexivity].
    rewrite Rmult_1_r. apply calculate_parameter_impact_in_range. lra.
Qed.

End ParameterImpact.

(** ** Dictionaries and sums *)

Section Dict.

Context {V : Type}.

Lemma getitem_in (d : dict V) (k : string) :
  In k (keys d) -> exists v, getitem d k = Ok v.
Proof.
  induction d as [| [k' v] d IH]; simpl; [contradiction |].
  intros [-> | Hin].
  - rewrite String.eqb_refl. now exists v.
  - destruct (String.eqb k' k); [now exists v | now apply IH].
Qed.

Lemma getitem_ok_in (d : dict V) (k : string) (v : V) :
  getitem d k = Ok v -> In k (keys d).
Proof.
  induction d as [| [k' v'] d IH]; simpl; [discriminate |].
  destruct (String.eqb k' k) eqn:E.
  - apply String.eqb_eq in E. now left.
  - intros H. right. now apply IH.
Qed.

Lemma getitem_missing (d : dict V) (k : string) :
  ~ In k (keys d) -> getitem d k = Raise (KeyError k).
Proof.
  induction d as [| [k' v] d IH]; simpl; [reflexivity |].
  intros Hnot. destruct (String.eqb k' k) eqn:E.
  - apply String.eqb_eq in E. tauto.
  - apply IH. tauto.
Qed.

Lemma getitem_raise (d : dict V) (k : string) (e : exn) :
  getitem d k = Raise e -> e = KeyError k /\ ~ In k (keys d).
Proof.
  intros H. destruct (in_dec string_dec k (keys d)) as [Hin | Hnot].
  - apply getitem_in in Hin as [v Hv]. congruence.
  - rewrite (getitem_missing d k Hnot) in H. split; [congruence | exact Hnot].
Qed.

Lemma getitem_of_item (d : dict V) (k : string) (v : V) :
  dict_wf d -> In (k, v) d -> getitem d k = Ok v.
Proof.
  unfold dict_wf. induction d as [| [k' v'] d IH]; simpl; [contradiction |].
  intros Hnd [Heq | Hin].
  - injection Heq as -> ->. now rewrite String.eqb_refl.
  - inversion Hnd as [| ? ? Hfresh Hnd']; subst.
    destruct (String.eqb k' k) eqn:E; [| now apply IH].
    apply String.eqb_eq in E. subst k'. exfalso. apply Hfresh.
    change k with (fst (k, v)). now apply in_map.
Qed.

End Dict.

Lemma fold_left_Rplus_shift (xs : list R) (a : R) :
  fold_left Rplus xs a = a + fold_left Rplus xs 0.
Proof.
  revert a. induction xs as [| x xs IH]; intros a; simpl; [lra |].
  rewrite (IH (a + x)), (IH (0 + x)). lra.
Qed.

Lemma py_sum_cons (x : R) (xs : list R) : py_sum (x :: xs) = x + py_sum xs.
Proof.
  unfold py_sum. simpl. rewrite fold_left_Rplus_shift. lra.
Qed.

Lemma py_sum_permutation (xs ys : list R) :
  Permutation xs ys -> py_sum xs = py_sum ys.
Proof.
  induction 1 as [| x xs ys _ IH | x y xs | xs ys zs _ IH1 _ IH2].
  - reflexivity.
  - rewrite !py_sum_cons. lra.
  - rewrite !py_sum_cons. lra.
  - congruence.
Qed.

Lemma np_clip_bounds (a : R) : 0 <= np_clip a 0 100 <= 100.
Proof.
  unfold np_clip, Rmin, Rmax.
  destruct (Rle_dec a 0); destruct (Rle_dec 100 _); lra.
Qed.

(** ** The table *)

Lemma table_rows_valid (name : string) (info : param_info) :
  getitem OPTIMAL_RANGES name = Ok info ->
  valid_spec info /\ 0 < base_impact info.
Proof.
  unfold OPTIMAL_RANGES, valid_spec. cbn [getitem].
  repeat (destruct (String.eqb _ name);
          [intros H; injection H as <-; simpl; lra |]).
  discriminate.
Qed.

Lemma parameter_names_nodup : NoDup PARAMETER_NAMES.
Proof.
  unfold PARAMETER_NAMES, keys, OPTIMAL_RANGES. simpl.
  repeat (constructor; [simpl; intuition discriminate |]). constructor.
Qed.

(** ** The comprehension and the aggregates *)

Ltac lookup_or_raise key :=
  let v := fresh "v" in
  let e := fresh "e" in
  let E := fresh "E" in
  destruct (getitem _ key) as [v | e] eqn:E; cbn [bind];
  [ apply getitem_ok_in in E
  | apply getitem_raise in E as [-> E]; exists key;
    split; [reflexivity | split; [simpl; tauto | exact E]] ].

Section TotalConversion.

Variable params : dict R.

Lemma parameter_impact_of_ok (name : string) :
  In name (keys params) -> In name PARAMETER_NAMES ->
  parameter_impact_of params name =
    Ok (payload (parameter_impact_of params name)).
Proof.
  intros Hkey Hname.
  destruct (getitem_in params name Hkey) as [value Hvalue].
  destruct (getitem_in OPTIMAL_RANGES name Hname) as [info Hinfo].
  destruct (table_rows_valid name info Hinfo) as [Hv _].
  destruct (calculate_parameter_impact_factor info Hv value)
    as (factor & Heq & _).
  unfold parameter_impact_of. rewrite Hvalue, Hinfo. cbn [bind].
  rewrite Heq. reflexivity.
Qed.

Lemma parameter_impact_of_item (name : string) (value : R) :
  dict_wf params -> In (name, value) params -> In name PARAMETER_NAMES ->
  exists info,
    getitem OPTIMAL_RANGES name = Ok info /\
    calculate_parameter_impact value info =
      Ok (payload (parameter_impact_of params name)).
Proof.
  intros Hwf Hin Hname.
  assert (Hkey : In name (keys params)).
  { change name with (fst (name, value)). now apply in_map. }
  pose proof (parameter_impact_of_ok name Hkey Hname) as Hok.
  destruct (getitem_in OPTIMAL_RANGES name Hname) as [info Hinfo].
  exists info. split; [exact Hinfo |].
  unfold parameter_impact_of in Hok at 1.
  rewrite (getitem_of_item params name value Hwf Hin), Hinfo in Hok.
  exact Hok.
Qed.

Lemma impacts_of_breakdown (items : dict R) :
  dict_wf params -> incl items params -> incl (keys items) PARAMETER_NAMES ->
  impacts_of items = Ok (breakdown params items).
Proof.
  intros Hwf. induction items as [| [name value] rest IH];
    intros Hsub Hnames; [reflexivity |].
  destruct (parameter_impact_of_item name value Hwf) as (info & Hinfo & Himp).
  { apply Hsub. now left. }
  { apply Hnames. now left. }
  cbn [impacts_of breakdown map fst]. rewrite Hinfo. cbn [bind].
  rewrite Himp. cbn [bind]. rewrite IH.
  - reflexivity.
  - intros x Hx. apply Hsub. now right.
  - intros x Hx. apply Hnames. now right.
Qed.

Lemma aggregates_inert :
  incl AGGREGATE_NAMES (keys params) ->
  calculate_total_conversion params =
    calculate_total_conversion_no_aggregates params.
Proof.
  intros Hagg.
  assert (Hget : forall k, In k AGGREGATE_NAMES ->
                           exists v, getitem params k = Ok v).
  { intros k Hk. apply getitem_in. now apply Hagg. }
  destruct (Hget "top_pressure") as [top Htop]; [simpl; tauto |].
  destruct (Hget "bottom_pressure") as [bottom Hbottom]; [simpl; tauto |].
  destruct (Hget "t1") as [t1 Ht1]; [simpl; tauto |].
  destruct (Hget "t2") as [t2 Ht2]; [simpl; tauto |].
  destruct (Hget "t3") as [t3 Ht3]; [simpl; tauto |].
  destruct (Hget "t4") as [t4 Ht4]; [simpl; tauto |].
  destruct (Hget "t5") as [t5 Ht5]; [simpl; tauto |].
  unfold calculate_total_conversion.
  rewrite Htop, Hbottom, Ht1, Ht2, Ht3, Ht4, Ht5. cbn [bind List.length].
  unfold py_div.
  destruct (Req_dec_T (INR 5) 0) as [H5 | _]; [simpl in H5; lra |].
  reflexivity.
Qed.

Lemma total_conversion_breakdown :
  dict_wf params -> incl (keys params) PARAMETER_NAMES ->
  incl AGGREGATE_NAMES (keys params) ->
  calculate_total_conversion params =
    Ok (np_clip (60 + py_sum (values (breakdown params params))) 0 100,
        breakdown params params).
Proof.
  intros Hwf Hnames Hagg. rewrite (aggregates_inert Hagg).
  unfold calculate_total_conversion_no_aggregates.
  rewrite (impacts_of_breakdown params Hwf (incl_refl params) Hnames).
  reflexivity.
Qed.

Lemma missing_aggregate_key (n : string) :
  In n AGGREGATE_NAMES -> ~ In n (keys params) ->
  exists k,
    calculate_total_conversion params = Raise (KeyError k) /\
    In k AGGREGATE_NAMES /\ ~ In k (keys params).
Proof.
  intros Hin Hnot. unfold calculate_total_conversion.
  lookup_or_raise "top_pressure".
  lookup_or_raise "bottom_pressure".
  lookup_or_raise "t1".
  lookup_or_raise "t2".
  lookup_or_raise "t3".
  lookup_or_raise "t4".
  lookup_or_raise "t5".
  exfalso. simpl in Hin.
  repeat (destruct Hin as [<- | Hin]; [contradiction |]). exact Hin.
Qed.

Lemma keys_breakdown (items : dict R) :
  keys (breakdown params items) = keys items.
Proof.
  unfold keys, breakdown. rewrite map_map. reflexivity.
Qed.

Lemma values_breakdown (items : dict R) :
  values (breakdown params items) =
    map (fun name => payload (parameter_impact_of params name)) (keys items).
Proof.
  unfold values, keys, breakdown. rewrite !map_map. reflexivity.
Qed.

End TotalConversion.

Lemma Forall2_map_r {A B : Type} (P : A -> B -> Prop) (f : A -> B)
  (xs : list A) :
  (forall x, In x xs -> P x (f x)) -> Forall2 P xs (map f xs).
Proof.
  induction xs as [| x xs IH]; intros H; simpl; constructor.
  - apply H. now left.
  - apply IH. intros y Hy. apply H. now right.
Qed.

Lemma complete_wf (params : dict R) : complete params -> dict_wf params.
Proof.
  intros Hc. unfold dict_wf.
  apply (Permutation_NoDup (Permutation_sym Hc)), parameter_names_nodup.
Qed.

Lemma complete_keys_named (params : dict R) :
  complete params -> incl (keys params) PARAMETER_NAMES.
Proof. intros Hc k Hk. exact (Permutation_in k Hc Hk). Qed.

Lemma complete_has_aggregates (params : dict R) :
  complete params -> incl AGGREGATE_NAMES (keys params).
Proof.
  intros Hc k Hk. apply (Permutation_in k (Permutation_sym Hc)).
  simpl in Hk. unfold PARAMETER_NAMES, keys, OPTIMAL_RANGES. simpl. tauto.
Qed.

Lemma complete_optimal_params : complete optimal_params.
Proof. apply Permutation_refl. Qed.

(** ** Sensitivity and the decay of the base effect *)

Lemma base_effect_sensitivity_mono (value : R) (a b : param_info) :
  valid_spec a -> valid_spec b -> same_but_sensitivity a b ->
  sensitivity a < sensitivity b ->
  0 < normalized_distance value a ->
  base_effect value a < base_effect value b.
Proof.
  intros [Hra Hsa] [Hrb Hsb] (Hmin & Hmax & Hopt & _ & _) Hlt Hd.
  assert (Hdist : normalized_distance value b = normalized_distance value a).
  { unfold normalized_distance, range_size. now rewrite Hmin, Hmax, Hopt. }
  unfold base_effect, smooth_transition. rewrite Hdist.
  apply expit_increasing.
  assert (Hinv : / sensitivity b < / sensitivity a).
  { apply Rinv_lt_contravar; [nra | exact Hlt]. }
  unfold Rdiv. rewrite !Rmult_1_l.
  set (d := normalized_distance value a) in *. nra.
Qed.

Lemma valid_t2_spec : valid_spec t2_spec.
Proof. unfold valid_spec, t2_spec; simpl; lra. Qed.

Lemma valid_slow_spec : valid_spec slow_spec.
Proof. unfold valid_spec, slow_spec; simpl; lra. Qed.

Lemma valid_sharp_spec : valid_spec sharp_spec.
Proof. unfold valid_spec, sharp_spec; simpl; lra. Qed.

Lemma slow_sharp_same : same_but_sensitivity slow_spec sharp_spec.
Proof. unfold same_but_sensitivity; simpl; repeat split; reflexivity. Qed.

Lemma slow_distance_at_2 : normalized_distance 2 slow_spec = 1 / 2.
Proof.
  unfold normalized_distance, range_size, slow_spec; simpl.
  replace (2 - 1) with 1 by ring. rewrite Rabs_R1. lra.
Qed.

(** ** Claims about a single parameter *)

(** C2. For every value and every valid spec (max > min, sensitivity > 0,
    base_impact >= 0), [calculate_parameter_impact] returns an impact in
    [0, base_impact]; the returned impact never exceeds the unpenalised
    [base_impact * base_effect], so the boundary penalty only reduces. *)
Theorem parameter_impact_bounds (value : R) (info : param_info) :
  valid_spec info -> 0 <= base_impact info ->
  exists impact,
    calculate_parameter_impact value info = Ok impact /\
    0 <= impact <= base_impact info /\
    impact <= base_impact info * base_effect value info.
Proof.
  intros Hv Hb.
  destruct (calculate_parameter_impact_factor info Hv value)
    as (factor & Heq & Hf & _).
  pose proof (base_effect_pos info value) as Hpos.
  pose proof (base_effect_le_half info Hv value) as Hhalf.
  exists (base_impact info * base_effect value info * factor).
  split; [exact Heq |].
  set (e := base_effect value info) in *. set (bi := base_impact info) in *.
  assert (0 <= bi * e) by nra.
  assert (bi * e <= bi) by nra.
  repeat split; nra.
Qed.

Lemma parameter_impact_bounds_witness :
  exists impact,
    calculate_parameter_impact 220 t2_spec = Ok impact /\
    0 <= impact <= base_impact t2_spec /\
    impact <= base_impact t2_spec * base_effect 220 t2_spec.
Proof.
  apply (parameter_impact_bounds 220 t2_spec valid_t2_spec).
  simpl; lra.
Defined.

(** C6. A value exactly at [min] or at [max] is in range: the function
    returns [base_impact * smooth_transition(|v - optimal| / range_size, 0,
    1 / sensitivity)] with no penalty factor. *)
Theorem boundary_value_not_penalised (info : param_info) :
  valid_spec info ->
  calculate_parameter_impact (min_val info) info =
    Ok (base_impact info *
        smooth_transition
          (Rabs (min_val info - optimal info) / (max_val info - min_val info))
          0 (1 / sensitivity info)) /\
  calculate_parameter_impact (max_val info) info =
    Ok (base_impact info *
        smooth_transition
          (Rabs (max_val info - optimal info) / (max_val info - min_val info))
          0 (1 / sensitivity info)).
Proof.
  intros Hv. pose proof Hv as [Hr _]. split.
  - apply (calculate_parameter_impact_in_range info Hv). lra.
  - apply (calculate_parameter_impact_in_range info Hv). lra.
Qed.

Lemma boundary_value_not_penalised_witness :
  calculate_parameter_impact 195 t2_spec =
    Ok (30 * smooth_transition (Rabs (195 - 200) / (205 - 195)) 0
               (1 / 0.217985)) /\
  calculate_parameter_impact 205 t2_spec =
    Ok (30 * smooth_transition (Rabs (205 - 200) / (205 - 195)) 0
               (1 / 0.217985)).
Proof.
  exact (boundary_value_not_penalised t2_spec valid_t2_spec).
Defined.

Lemma impact_at_optimal (info : param_info) :
  valid_spec info ->
  calculate_parameter_impact (optimal info) info =
    Ok (base_impact info * 0.5).
Proof.
  intros Hv.
  destruct (calculate_parameter_impact_factor info Hv (optimal info))
    as (factor & Heq & _ & Hone).
  rewrite Heq, (Hone eq_refl). f_equal.
  assert (Hd : normalized_distance (optimal info) info = 0)
    by (now apply distance_zero_iff).
  unfold base_effect. rewrite Hd, smooth_transition_center. lra.
Qed.

(** C7. On every valid spec the impact at the optimal value is
    [base_impact * 0.5], and [smooth_transition x x s = 0.5] for every [x]
    and every [s > 0]. *)
Theorem optimal_value_gives_half (info : param_info) :
  valid_spec info ->
  calculate_parameter_impact (optimal info) info =
    Ok (base_impact info * 0.5) /\
  normalized_distance (optimal info) info = 0 /\
  (forall x s, 0 < s -> smooth_transition x x s = 0.5).
Proof.
  intros Hv. split; [| split].
  - now apply impact_at_optimal.
  - now apply distance_zero_iff.
  - intros x s _. rewrite smooth_transition_center. lra.
Qed.

Lemma optimal_value_gives_half_witness :
  calculate_parameter_impact 200 t2_spec = Ok (30 * 0.5) /\
  normalized_distance 200 t2_spec = 0 /\
  (forall x s, 0 < s -> smooth_transition x x s = 0.5).
Proof.
  exact (optimal_value_gives_half t2_spec valid_t2_spec).
Defined.

Lemma valid_zero_impact_spec : valid_spec zero_impact_spec.
Proof. unfold valid_spec, zero_impact_spec; simpl; lra. Qed.

(** C10, as stated, fails: with [base_impact = 0] (allowed, the field is
    non-negative) the impact is [0 = base_impact * 0.5] at every value, so
    equality is reached away from the optimum too: here at 201 on a row
    whose optimum is 200. *)
Lemma half_bound_equality_not_only_at_optimal :
  valid_spec zero_impact_spec /\
  201 <> optimal zero_impact_spec /\
  calculate_parameter_impact 201 zero_impact_spec =
    Ok (base_impact zero_impact_spec * 0.5).
Proof.
  split; [exact valid_zero_impact_spec |]. split; [simpl; lra |].
  rewrite (calculate_parameter_impact_in_range _ valid_zero_impact_spec)
    by (simpl; lra).
  f_equal. simpl. lra.
Qed.

(** C10, amended. For every value and every valid spec with
    [base_impact >= 0] the returned impact is at most [base_impact * 0.5],
    with equality at the optimal value; when [base_impact > 0] equality
    holds only at the optimal value. *)
Theorem parameter_impact_half_bound (value : R) (info : param_info) :
  valid_spec info -> 0 <= base_impact info ->
  exists impact,
    calculate_parameter_impact value info = Ok impact /\
    impact <= base_impact info * 0.5 /\
    (value = optimal info -> impact = base_impact info * 0.5) /\
    (0 < base_impact info ->
     impact = base_impact info * 0.5 -> value = optimal info).
Proof.
  intros Hv Hb.
  destruct (calculate_parameter_impact_factor info Hv value)
    as (factor & Heq & Hf & Hone).
  pose proof (base_effect_pos info value) as Hpos.
  pose proof (base_effect_le_half info Hv value) as Hhalf.
  exists (base_impact info * base_effect value info * factor).
  split; [exact Heq |]. split; [| split].
  - set (e := base_effect value info) in *.
    set (bi := base_impact info) in *.
    assert (0 <= bi * e) by nra. assert (bi * e <= bi * 0.5) by nra. nra.
  - intros ->. rewrite impact_at_optimal in Heq by exact Hv.
    now injection Heq as <-.
  - intros Hbpos Hhit.
    destruct (Req_dec value (optimal info)) as [E | N]; [exact E | exfalso].
    pose proof (base_effect_lt_half info Hv value N) as Hlt.
    set (e := base_effect value info) in *.
    set (bi := base_impact info) in *.
    assert (bi * e < bi * 0.5) by nra. assert (0 < bi * e) by nra. nra.
Qed.

Lemma parameter_impact_half_bound_witness :
  exists impact,
    calculate_parameter_impact 220 t2_spec = Ok impact /\
    impact <= base_impact t2_spec * 0.5 /\
    (220 = optimal t2_spec -> impact = base_impact t2_spec * 0.5) /\
    (0 < base_impact t2_spec ->
     impact = base_impact t2_spec * 0.5 -> 220 = optimal t2_spec).
Proof.
  apply (parameter_impact_half_bound 220 t2_spec valid_t2_spec).
  simpl; lra.
Defined.

(** C3, as stated, fails: of two rows that differ in sensitivity only
    (1 and 2), at the same strictly positive normalized distance, the row
    with the smaller sensitivity does not have the larger base effect. *)
Lemma smaller_sensitivity_not_larger_effect :
  same_but_sensitivity slow_spec sharp_spec /\
  sensitivity slow_spec < sensitivity sharp_spec /\
  0 < normalized_distance 2 slow_spec /\
  normalized_distance 2 sharp_spec = normalized_distance 2 slow_spec /\
  ~ base_effect 2 sharp_spec < base_effect 2 slow_spec.
Proof.
  assert (Hd : 0 < normalized_distance 2 slow_spec)
    by (rewrite slow_distance_at_2; lra).
  split; [exact slow_sharp_same |]. split; [simpl; lra |].
  split; [exact Hd |]. split; [reflexivity |].
  apply Rle_not_lt. left.
  apply base_effect_sensitivity_mono;
    [exact valid_slow_spec | exact valid_sharp_spec | exact slow_sharp_same
    | simpl; lra | exact Hd].
Qed.

(** C3, amended. For two valid specs identical except for sensitivities
    [s1 < s2], and any value at the same strictly positive normalized
    distance from the optimum, the spec with the LARGER sensitivity [s2]
    yields a base effect at least as large as that of [s1], and, when
    [base_impact >= 0], an impact at least as large: the smaller
    sensitivity never gives the larger base effect. *)
Theorem larger_sensitivity_slower_decay (value : R) (a b : param_info) :
  valid_spec a -> valid_spec b -> same_but_sensitivity a b ->
  sensitivity a < sensitivity b ->
  0 < normalized_distance value a ->
  normalized_distance value b = normalized_distance value a /\
  base_effect value a <= base_effect value b /\
  exists impact_a impact_b,
    calculate_parameter_impact value a = Ok impact_a /\
    calculate_parameter_impact value b = Ok impact_b /\
    (0 <= base_impact a -> impact_a <= impact_b).
Proof.
  intros Ha Hb Hsame Hlt Hd.
  assert (Hmono : base_effect value a <= base_effect value b).
  { left. now apply base_effect_sensitivity_mono. }
  destruct Hsame as (Hmin & Hmax & Hopt & _ & Hbi).
  assert (Hdist : normalized_distance value b = normalized_distance value a).
  { unfold normalized_distance, range_size. now rewrite Hmin, Hmax, Hopt. }
  split; [exact Hdist |]. split; [exact Hmono |].
  destruct (Rlt_dec value (min_val a)) as [Hlo | Hlo];
    [| destruct (Rlt_dec (max_val a) value) as [Hhi | Hhi]].
  - exists (base_impact a * base_effect value a
            * (1 - 0.2 * Rmin (normalized_distance value a) 1)),
           (base_impact b * base_effect value b
            * (1 - 0.2 * Rmin (normalized_distance value b) 1)).
    split; [apply (calculate_parameter_impact_outside a Ha); now left |].
    split; [apply (calculate_parameter_impact_outside b Hb); left; lra |].
    intros Hpos. rewrite Hdist, <- Hbi.
    pose proof (penalty_bounds a Ha value) as Hf.
    apply Rmult_le_compat_r; [lra |].
    apply Rmult_le_compat_l; assumption.
  - exists (base_impact a * base_effect value a
            * (1 - 0.2 * Rmin (normalized_distance value a) 1)),
           (base_impact b * base_effect value b
            * (1 - 0.2 * Rmin (normalized_distance value b) 1)).
    split; [apply (calculate_parameter_impact_outside a Ha); now right |].
    split; [apply (calculate_parameter_impact_outside b Hb); right; lra |].
    intros Hpos. rewrite Hdist, <- Hbi.
    pose proof (penalty_bounds a Ha value) as Hf.
    apply Rmult_le_compat_r; [lra |].
    apply Rmult_le_compat_l; assumption.
  - exists (base_impact a * base_effect value a),
           (base_impact b * base_effect value b).
    split; [apply (calculate_parameter_impact_in_range a Ha); lra |].
    split; [apply (calculate_parameter_impact_in_range b Hb); lra |].
    intros Hpos. rewrite <- Hbi.
    apply Rmult_le_compat_l; assumption.
Qed.

Lemma larger_sensitivity_slower_decay_witness :
  normalized_distance 2 sharp_spec = normalized_distance 2 slow_spec /\
  base_effect 2 slow_spec <= base_effect 2 sharp_spec /\
  exists impact_a impact_b,
    calculate_parameter_impact 2 slow_spec = Ok impact_a /\
    calculate_parameter_impact 2 sharp_spec = Ok impact_b /\
    (0 <= base_impact slow_spec -> impact_a <= impact_b).
Proof.
  apply (larger_sensitivity_slower_decay 2 slow_spec sharp_spec
           valid_slow_spec valid_sharp_spec slow_sharp_same).
  - simpl; lra.
  - rewrite slow_distance_at_2; lra.
Defined.

(** ** Evaluation at the optimal values *)

Lemma impact_at_optimal_value (value : R) (info : param_info) :
  valid_spec info -> value = optimal info ->
  calculate_parameter_impact value info = Ok (base_impact info * 0.5).
Proof. intros Hv ->. now apply impact_at_optimal. Qed.

Ltac eval_optimal_row :=
  match goal with
  | |- context [getitem OPTIMAL_RANGES ?k] =>
      let row := eval cbv [getitem OPTIMAL_RANGES String.eqb Ascii.eqb
                           Bool.eqb] in (getitem OPTIMAL_RANGES k) in
      change (getitem OPTIMAL_RANGES k) with row; cbn [bind];
      erewrite impact_at_optimal_value
        by first [ unfold valid_spec; simpl; lra | simpl; lra ];
      cbn [bind base_impact]
  end.

Ltac clip_arith :=
  unfold values, py_sum; cbn [map snd fold_left];
  unfold np_clip, Rmin, Rmax;
  repeat match goal with
         | |- context [Rle_dec ?a ?b] => destruct (Rle_dec a b)
         end; lra.

Lemma optimal_params_result :
  calculate_total_conversion optimal_params = Ok (100, optimal_impacts).
Proof.
  rewrite (aggregates_inert optimal_params
             (complete_has_aggregates _ complete_optimal_params)).
  unfold calculate_total_conversion_no_aggregates, optimal_params.
  cbn [impacts_of].
  do 12 eval_optimal_row.
  unfold optimal_impacts. f_equal. f_equal.
  - clip_arith.
  - repeat f_equal; lra.
Qed.

Lemma without_lhsv_has_aggregates :
  incl AGGREGATE_NAMES (keys params_without_lhsv).
Proof. intros k Hk. simpl in *. tauto. Qed.

Lemma lhsv_not_in_without_lhsv : ~ In "lhsv" (keys params_without_lhsv).
Proof. simpl. intuition discriminate. Qed.

Lemma without_lhsv_result :
  calculate_total_conversion params_without_lhsv =
    Ok (100, optimal_impacts_without_lhsv).
Proof.
  rewrite (aggregates_inert _ without_lhsv_has_aggregates).
  unfold calculate_total_conversion_no_aggregates, params_without_lhsv.
  cbn [impacts_of].
  do 11 eval_optimal_row.
  unfold optimal_impacts_without_lhsv. f_equal. f_equal.
  - clip_arith.
  - repeat f_equal; lra.
Qed.

(** ** Claims about the total conversion *)

(** C1. For every complete parameter set [calculate_total_conversion]
    returns [clip(60 + sum of the twelve per-parameter impacts, 0, 100)],
    each impact being [calculate_parameter_impact(params[name],
    OPTIMAL_RANGES[name])]; the returned conversion lies in [0, 100]. *)
Theorem total_conversion_clamped (params : dict R) :
  complete params ->
  exists impacts per_name,
    calculate_total_conversion params =
      Ok (np_clip (60 + py_sum per_name) 0 100, impacts) /\
    Forall2 (fun name impact => parameter_impact_of params name = Ok impact)
            PARAMETER_NAMES per_name /\
    py_sum (values impacts) = py_sum per_name /\
    0 <= np_clip (60 + py_sum per_name) 0 100 <= 100.
Proof.
  intros Hc.
  pose proof (complete_wf params Hc) as Hwf.
  pose proof (complete_keys_named params Hc) as Hnames.
  pose proof (complete_has_aggregates params Hc) as Hagg.
  set (f := fun name => payload (parameter_impact_of params name)).
  assert (Hsum : py_sum (values (breakdown params params))
                 = py_sum (map f PARAMETER_NAMES)).
  { rewrite values_breakdown. apply py_sum_permutation.
    apply Permutation_map. exact Hc. }
  exists (breakdown params params), (map f PARAMETER_NAMES).
  split; [| split; [| split]].
  - rewrite (total_conversion_breakdown params Hwf Hnames Hagg), Hsum.
    reflexivity.
  - apply Forall2_map_r. intros name Hname.
    apply parameter_impact_of_ok; [| exact Hname].
    exact (Permutation_in name (Permutation_sym Hc) Hname).
  - exact Hsum.
  - apply np_clip_bounds.
Qed.

Lemma total_conversion_clamped_witness :
  exists impacts per_name,
    calculate_total_conversion optimal_params =
      Ok (np_clip (60 + py_sum per_name) 0 100, impacts) /\
    Forall2 (fun name impact =>
               parameter_impact_of optimal_params name = Ok impact)
            PARAMETER_NAMES per_name /\
    py_sum (values impacts) = py_sum per_name /\
    0 <= np_clip (60 + py_sum per_name) 0 100 <= 100.
Proof.
  apply (total_conversion_clamped optimal_params).
  apply Permutation_refl.
Defined.

(** C4, as stated, fails on its arithmetic: at the optimal values the sum
    of the halves of the twelve [base_impact]s is 67.5, not 47.5, so the
    total before clamping is 127.5, which is 20 away from 107.5. *)
Lemma optimal_scenario_total_is_not_107_5 :
  exists conversion impacts,
    calculate_total_conversion optimal_params = Ok (conversion, impacts) /\
    py_sum (map (fun row => base_impact (snd row) * 0.5) OPTIMAL_RANGES)
      = 67.5 /\
    60 + py_sum (values impacts) = 127.5 /\
    Rabs (60 + py_sum (values impacts) - 107.5) = 20.
Proof.
  exists 100, optimal_impacts. split; [exact optimal_params_result |].
  assert (Htotal : 60 + py_sum (values optimal_impacts) = 127.5).
  { unfold optimal_impacts, values, py_sum. cbn [map snd fold_left]. lra. }
  split; [| split].
  - unfold OPTIMAL_RANGES, py_sum. cbn [map snd fold_left base_impact]. lra.
  - exact Htotal.
  - rewrite Htotal. replace (127.5 - 107.5) with 20 by lra.
    apply Rabs_pos_eq. lra.
Qed.

(** C4, amended. With every parameter at its optimal value, every returned
    impact is half of that parameter's [base_impact] (15 for t2), the total
    before clamping is [60 + 67.5 = 127.5], and the returned conversion is
    the clamped value 100. *)
Theorem optimal_scenario :
  Forall2 (fun row item => fst item = fst row /\ snd item = optimal (snd row))
          OPTIMAL_RANGES optimal_params /\
  calculate_total_conversion optimal_params = Ok (100, optimal_impacts) /\
  Forall2 (fun row impact =>
             fst impact = fst row /\ snd impact = base_impact (snd row) * 0.5)
          OPTIMAL_RANGES optimal_impacts /\
  getitem optimal_impacts "t2" = Ok 15 /\
  60 + py_sum (values optimal_impacts) = 127.5 /\
  np_clip 127.5 0 100 = 100.
Proof.
  split; [| split; [| split; [| split; [| split]]]].
  - unfold OPTIMAL_RANGES, optimal_params.
    repeat (constructor; [split; [reflexivity | simpl; lra] |]).
    constructor.
  - exact optimal_params_result.
  - unfold OPTIMAL_RANGES, optimal_impacts.
    repeat (constructor; [split; [reflexivity | simpl; lra] |]).
    constructor.
  - reflexivity.
  - unfold optimal_impacts, values, py_sum. cbn [map snd fold_left]. lra.
  - clip_arith.
Qed.

(** C8. For every complete parameter set the function returns a result,
    and it is the result of the variant without the derived aggregates. *)
Theorem derived_aggregates_inert (params : dict R) :
  complete params ->
  calculate_total_conversion params =
    calculate_total_conversion_no_aggregates params /\
  exists conversion impacts,
    calculate_total_conversion params = Ok (conversion, impacts).
Proof.
  intros Hc. split.
  - apply aggregates_inert. now apply complete_has_aggregates.
  - eexists. eexists.
    apply total_conversion_breakdown;
      [ now apply complete_wf | now apply complete_keys_named
      | now apply complete_has_aggregates ].
Qed.

Lemma derived_aggregates_inert_witness :
  calculate_total_conversion optimal_params =
    calculate_total_conversion_no_aggregates optimal_params /\
  exists conversion impacts,
    calculate_total_conversion optimal_params = Ok (conversion, impacts).
Proof.
  apply (derived_aggregates_inert optimal_params).
  apply Permutation_refl.
Defined.

(** C5, as stated, fails: the parameter set that omits ["lhsv"], one of the
    twelve required names, raises nothing; the function returns a
    conversion and an eleven-entry breakdown. *)
Lemma missing_lhsv_raises_nothing :
  In "lhsv" PARAMETER_NAMES /\
  ~ In "lhsv" (keys params_without_lhsv) /\
  calculate_total_conversion params_without_lhsv =
    Ok (100, optimal_impacts_without_lhsv).
Proof.
  split; [| split].
  - unfold PARAMETER_NAMES, keys, OPTIMAL_RANGES. simpl. tauto.
  - exact lhsv_not_in_without_lhsv.
  - exact without_lhsv_result.
Qed.

(** C5, amended. If the parameter set omits one of the seven names read by
    the derived aggregates (top_pressure, bottom_pressure, t1 .. t5), the
    function raises [KeyError] for such a missing name and returns no
    result. *)
Theorem missing_aggregate_parameter_raises (params : dict R) (n : string) :
  In n AGGREGATE_NAMES -> ~ In n (keys params) ->
  exists k,
    calculate_total_conversion params = Raise (KeyError k) /\
    In k AGGREGATE_NAMES /\ ~ In k (keys params).
Proof. apply missing_aggregate_key. Qed.

Lemma missing_aggregate_parameter_raises_witness :
  exists k,
    calculate_total_conversion params_without_t1 = Raise (KeyError k) /\
    In k AGGREGATE_NAMES /\ ~ In k (keys params_without_t1).
Proof.
  apply (missing_aggregate_parameter_raises params_without_t1 "t1").
  - simpl. tauto.
  - simpl. intuition discriminate.
Defined.

(** C9. If the parameter set (a dict whose keys are among the twelve names)
    holds the seven names read by the derived aggregates and omits one of
    the other five, the function raises nothing: it returns a breakdown
    with exactly the keys supplied, so without the missing name, and a
    conversion that is the clamp of 60 plus the impacts of the supplied
    parameters only. *)
Theorem missing_other_parameter_unnoticed (params : dict R) (n : string) :
  dict_wf params ->
  incl (keys params) PARAMETER_NAMES ->
  incl AGGREGATE_NAMES (keys params) ->
  In n OTHER_NAMES -> ~ In n (keys params) ->
  exists impacts,
    calculate_total_conversion params =
      Ok (np_clip (60 + py_sum (values impacts)) 0 100, impacts) /\
    keys impacts = keys params /\
    getitem impacts n = Raise (KeyError n) /\
    Forall2 (fun item impact =>
               fst impact = fst item /\
               exists info,
                 getitem OPTIMAL_RANGES (fst item) = Ok info /\
                 calculate_parameter_impact (snd item) info = Ok (snd impact))
            params impacts.
Proof.
  intros Hwf Hnames Hagg _ Hmissing.
  exists (breakdown params params). split; [| split; [| split]].
  - now apply total_conversion_breakdown.
  - apply keys_breakdown.
  - apply getitem_missing. now rewrite keys_breakdown.
  - unfold breakdown. apply Forall2_map_r. intros [name value] Hin.
    split; [reflexivity |]. cbn [fst snd].
    apply parameter_impact_of_item; [exact Hwf | exact Hin |].
    apply Hnames. change name with (fst (name, value)). now apply in_map.
Qed.

Lemma missing_other_parameter_unnoticed_witness :
  exists impacts,
    calculate_total_conversion params_without_lhsv =
      Ok (np_clip (60 + py_sum (values impacts)) 0 100, impacts) /\
    keys impacts = keys params_without_lhsv /\
    getitem impacts "lhsv" = Raise (KeyError "lhsv") /\
    Forall2 (fun item impact =>
               fst impact = fst item /\
               exists info,
                 getitem OPTIMAL_RANGES (fst item) = Ok info /\
                 calculate_parameter_impact (snd item) info = Ok (snd impact))
            params_without_lhsv impacts.
Proof.
  apply (missing_other_parameter_unnoticed params_without_lhsv "lhsv").
  - unfold dict_wf, keys, params_without_lhsv. simpl.
    repeat (constructor; [simpl; intuition discriminate |]). constructor.
  - intros k Hk. unfold PARAMETER_NAMES, keys, OPTIMAL_RANGES.
    simpl in *. tauto.
  - intros k Hk. simpl in *. tauto.
  - simpl. tauto.
  - simpl. intuition discriminate.
Defined.

(** * Further properties of the code *)

(** ** The shape of [smooth_transition] *)

Lemma expit_reflect (z : R) : expit (- z) = 1 - expit z.
Proof.
  unfold expit. rewrite Ropp_involutive, exp_Ropp.
  pose proof (exp_pos z). field. split; lra.
Qed.

(** X1. [smooth_transition] never leaves the unit interval: its value
    lies between 0 and 1, for every argument, centre and scale. *)
Theorem smooth_transition_range (x center scale : R) :
  0 <= smooth_transition x center scale <= 1.
Proof.
  unfold smooth_transition.
  split; left; [apply expit_pos | apply expit_lt_1].
Qed.

(** X2. With a positive scale [smooth_transition] never increases with its
    first argument: it is at least 1/2 up to the centre and at most 1/2
    from the centre on. *)
Theorem smooth_transition_decreasing (x y center scale : R) :
  0 < scale -> x <= y ->
  smooth_transition y center scale <= smooth_transition x center scale /\
  (x <= center -> 1 / 2 <= smooth_transition x center scale) /\
  (center <= y -> smooth_transition y center scale <= 1 / 2).
Proof.
  intros Hs Hxy. unfold smooth_transition.
  assert (Hmono : forall u v, u <= v -> expit u <= expit v).
  { intros u v [Huv | ->]; [left; now apply expit_increasing | lra]. }
  split; [| split].
  - apply Hmono. nra.
  - intros Hx. rewrite <- expit_0. apply Hmono. nra.
  - intros Hy. apply expit_nonpos_le_half. nra.
Qed.

Lemma smooth_transition_decreasing_witness :
  smooth_transition 1 0 2 <= smooth_transition (-1) 0 2 /\
  (-1 <= 0 -> 1 / 2 <= smooth_transition (-1) 0 2) /\
  (0 <= 1 -> smooth_transition 1 0 2 <= 1 / 2).
Proof.
  apply (smooth_transition_decreasing (-1) 1 0 2); lra.
Defined.

(** X3. [smooth_transition] is point-symmetric about its centre: the values
    at [center + d] and [center - d] add up to 1, whatever the scale. *)
Theorem smooth_transition_symmetric (center d scale : R) :
  smooth_transition (center + d) center scale
  + smooth_transition (center - d) center scale = 1.
Proof.
  unfold smooth_transition.
  replace (- (center - d - center) * scale)
    with (- (- (center + d - center) * scale)) by ring.
  rewrite expit_reflect. ring.
Qed.

(** ** The shape of [calculate_parameter_impact] *)

Section ImpactShape.

Variable info : param_info.
Hypothesis Hvalid : valid_spec info.

Lemma range_size_pos : 0 < range_size info.
Proof. unfold range_size. destruct Hvalid. lra. Qed.

Lemma distance_above (value : R) :
  optimal info <= value ->
  normalized_distance value info = (value - optimal info) / range_size info.
Proof.
  intros H. unfold normalized_distance. rewrite Rabs_pos_eq by lra.
  reflexivity.
Qed.

Lemma distance_below (value : R) :
  value <= optimal info ->
  normalized_distance value info = (optimal info - value) / range_size info.
Proof.
  intros H. unfold normalized_distance.
  rewrite Rabs_minus_sym, Rabs_pos_eq by lra. reflexivity.
Qed.

Lemma div_range_le (a b : R) :
  a <= b -> a / range_size info <= b / range_size info.
Proof.
  intros H. pose proof range_size_pos as Hr. unfold Rdiv.
  apply Rmult_le_compat_r; [| exact H].
  left. now apply Rinv_0_lt_compat.
Qed.

Lemma between_distance_le (near far : R) :
  between_optimal near far info ->
  normalized_distance near info <= normalized_distance far info.
Proof.
  intros [[H1 H2] | [H1 H2]].
  - rewrite !distance_above by lra. apply div_range_le. lra.
  - rewrite !distance_below by lra. apply div_range_le. lra.
Qed.

Lemma base_effect_distance_le (v w : R) :
  normalized_distance v info <= normalized_distance w info ->
  base_effect w info <= base_effect v info.
Proof.
  intros [Hlt | Heq].
  - left. unfold base_effect, smooth_transition. apply expit_increasing.
    pose proof (scale_pos info Hvalid). nra.
  - right. unfold base_effect. now rewrite Heq.
Qed.

Lemma penalty_antitone (v w : R) :
  normalized_distance v info <= normalized_distance w info ->
  1 - 0.2 * Rmin (normalized_distance w info) 1
  <= 1 - 0.2 * Rmin (normalized_distance v info) 1.
Proof.
  intros H. unfold Rmin.
  destruct (Rle_dec (normalized_distance w info) 1);
    destruct (Rle_dec (normalized_distance v info) 1); lra.
Qed.

(** Whether the comparison of line 104 holds. *)
Lemma window_cases (value : R) :
  in_window value info \/ value < min_val info \/ max_val info < value.
Proof.
  unfold in_window.
  destruct (Rlt_dec value (min_val info)); [tauto |].
  destruct (Rlt_dec (max_val info) value); [tauto |].
  left. lra.
Qed.

(** Moving from [far] towards the optimum never lowers the impact. *)
Lemma impact_between_le (near far : R) :
  0 <= base_impact info -> optimal_in_window info ->
  between_optimal near far info ->
  exists impact_near impact_far,
    calculate_parameter_impact near info = Ok impact_near /\
    calculate_parameter_impact far info = Ok impact_far /\
    impact_far <= impact_near.
Proof.
  intros Hb Hopt Hbetween.
  pose proof (between_distance_le near far Hbetween) as Hd.
  pose proof (base_effect_distance_le near far Hd) as He.
  pose proof (base_effect_pos info far) as Hpos.
  pose proof (penalty_bounds info Hvalid far) as Hpf.
  pose proof (penalty_bounds info Hvalid near) as Hpn.
  pose proof (penalty_antitone near far Hd) as Hp.
  assert (Hbe : base_impact info * base_effect far info
                <= base_impact info * base_effect near info)
    by (now apply Rmult_le_compat_l).
  assert (Hbpos : 0 <= base_impact info * base_effect far info)
    by (apply Rmult_le_pos; lra).
  unfold optimal_in_window in Hopt.
  destruct (window_cases far) as [Hin | Hout].
  - assert (Hnear : in_window near info).
    { unfold in_window, between_optimal in *. lra. }
    do 2 eexists. split; [| split].
    + now apply calculate_parameter_impact_in_range.
    + now apply calculate_parameter_impact_in_range.
    + exact Hbe.
  - destruct (window_cases near) as [Hnin | Hnout].
    + do 2 eexists. split; [| split].
      * now apply calculate_parameter_impact_in_range.
      * now apply calculate_parameter_impact_outside.
      * set (x := base_impact info * base_effect far info) in *. nra.
    + do 2 eexists. split; [| split].
      * now apply calculate_parameter_impact_outside.
      * now apply calculate_parameter_impact_outside.
      * set (x := base_impact info * base_effect far info) in *.
        set (y := base_impact info * base_effect near info) in *.
        set (p := 1 - 0.2 * Rmin (normalized_distance far info) 1) in *.
        set (q := 1 - 0.2 * Rmin (normalized_distance near info) 1) in *.
        apply Rle_trans with (x * q); [| apply Rmult_le_compat_r; lra].
        apply Rmult_le_compat_l; lra.
Qed.

End ImpactShape.

Lemma distance_symmetric (info : param_info) (d : R) :
  normalized_distance (optimal info + d) info
  = normalized_distance (optimal info - d) info.
Proof.
  unfold normalized_distance. f_equal.
  replace (optimal info + d - optimal info) with d by ring.
  replace (optimal info - d - optimal info) with (- d) by ring.
  now rewrite Rabs_Ropp.
Qed.

Lemma base_effect_decay (value : R) (info : param_info) :
  valid_spec info ->
  base_effect value info
  <= 1 / (2 + normalized_distance value info / sensitivity info).
Proof.
  intros Hv. pose proof (distance_nonneg info Hv value) as Hd.
  destruct Hv as [_ Hs].
  set (z := normalized_distance value info / sensitivity info).
  assert (Hz : 0 <= z).
  { unfold z, Rdiv. apply Rmult_le_pos; [exact Hd |].
    left. now apply Rinv_0_lt_compat. }
  assert (Hexp : 1 + z <= exp z).
  { destruct (Req_dec z 0) as [-> | Hne].
    - rewrite exp_0. lra.
    - left. now apply exp_ineq1. }
  unfold base_effect, smooth_transition, expit.
  replace (- (- (normalized_distance value info - 0)
              * (1 / sensitivity info))) with z
    by (unfold z; field; lra).
  unfold Rdiv. rewrite !Rmult_1_l.
  apply Rinv_le_contravar; lra.
Qed.

(** X4. [calculate_parameter_impact] raises exactly when the row has a
    zero-width window ([max = min]) or a zero sensitivity, and what it
    raises then is [ZeroDivisionError]; in every other case, inverted
    windows and negative sensitivities included, it returns an impact. *)
Theorem parameter_impact_raises_iff (value : R) (info : param_info) :
  (max_val info = min_val info \/ sensitivity info = 0 <->
   calculate_parameter_impact value info = Raise ZeroDivisionError) /\
  (max_val info <> min_val info /\ sensitivity info <> 0 <->
   exists impact, calculate_parameter_impact value info = Ok impact).
Proof.
  unfold calculate_parameter_impact, py_div.
  destruct (Req_dec_T (max_val info - min_val info) 0) as [Hr | Hr];
    cbn [bind].
  - split; split.
    + reflexivity.
    + intros _. left. lra.
    + intros [Hne _]. exfalso. apply Hne. lra.
    + intros [impact H]. discriminate.
  - destruct (Req_dec_T (sensitivity info) 0) as [Hs | Hs]; cbn [bind].
    + split; split.
      * reflexivity.
      * intros _. now right.
      * intros [_ Hne]. contradiction.
      * intros [impact H]. discriminate.
    + assert (Hok : exists impact,
                 (if (Rltb value (min_val info)
                      || Rltb (max_val info) value)%bool
                  then
                    Ok (base_impact info
                        * smooth_transition
                            (Rabs (value - optimal info)
                             / (max_val info - min_val info))
                            0 (1 / sensitivity info)
                        * (1 - 0.2
                               * Rmin (Rabs (value - optimal info)
                                       / (max_val info - min_val info)) 1))
                  else
                    Ok (base_impact info
                        * smooth_transition
                            (Rabs (value - optimal info)
                             / (max_val info - min_val info))
                            0 (1 / sensitivity info)))
                 = Ok impact).
      { destruct (Rltb value (min_val info) || Rltb (max_val info) value)%bool;
          eexists; reflexivity. }
      destruct Hok as [impact Hok]. rewrite Hok. split; split.
      * intros [H | H]; exfalso; [apply Hr; lra | contradiction].
      * discriminate.
      * intros _. now exists impact.
      * intros _. split; [intros H; apply Hr; lra | exact Hs].
Qed.

(** X5. On a valid row with [base_impact >= 0] the boundary penalty takes
    off at most 20%: the impact is non-negative and lies between 80% and
    100% of [base_impact * base_effect]; it is the full product inside the
    window and exactly 80% of it outside the window once the normalized
    distance reaches 1. *)
Theorem penalty_at_most_a_fifth (value : R) (info : param_info) :
  valid_spec info -> 0 <= base_impact info ->
  exists impact,
    calculate_parameter_impact value info = Ok impact /\
    0 <= impact /\
    0.8 * (base_impact info * base_effect value info) <= impact
      <= base_impact info * base_effect value info /\
    (in_window value info ->
     impact = base_impact info * base_effect value info) /\
    (~ in_window value info -> 1 <= normalized_distance value info ->
     impact = 0.8 * (base_impact info * base_effect value info)).
Proof.
  intros Hv Hb.
  pose proof (base_effect_pos info value) as Hpos.
  pose proof (penalty_bounds info Hv value) as Hp.
  assert (Hx : 0 <= base_impact info * base_effect value info)
    by (apply Rmult_le_pos; lra).
  destruct (window_cases info value) as [Hin | Hout].
  - eexists. split; [now apply calculate_parameter_impact_in_range |].
    set (x := base_impact info * base_effect value info) in *.
    split; [lra |]. split; [lra |]. split; [reflexivity | tauto].
  - eexists. split; [now apply calculate_parameter_impact_outside |].
    set (x := base_impact info * base_effect value info) in *.
    set (p := 1 - 0.2 * Rmin (normalized_distance value info) 1) in *.
    split; [nra |]. split; [nra |]. split.
    + intros Hin. unfold in_window in Hin. lra.
    + intros _ Hd. unfold p. rewrite Rmin_right by exact Hd. lra.
Qed.

Lemma penalty_at_most_a_fifth_witness :
  exists impact,
    calculate_parameter_impact 220 t2_spec = Ok impact /\
    0 <= impact /\
    0.8 * (base_impact t2_spec * base_effect 220 t2_spec) <= impact
      <= base_impact t2_spec * base_effect 220 t2_spec /\
    (in_window 220 t2_spec ->
     impact = base_impact t2_spec * base_effect 220 t2_spec) /\
    (~ in_window 220 t2_spec -> 1 <= normalized_distance 220 t2_spec ->
     impact = 0.8 * (base_impact t2_spec * base_effect 220 t2_spec)).
Proof.
  apply (penalty_at_most_a_fifth 220 t2_spec).
  - unfold valid_spec; simpl; lra.
  - simpl; lra.
Defined.

(** X6. On a valid row whose window is symmetric about the optimum the
    impact depends on the size of the deviation only: the values
    [optimal + d] and [optimal - d] get the same result. *)
Theorem impact_symmetric_about_optimal (d : R) (info : param_info) :
  valid_spec info ->
  optimal info - min_val info = max_val info - optimal info ->
  calculate_parameter_impact (optimal info + d) info
  = calculate_parameter_impact (optimal info - d) info.
Proof.
  intros Hv Hsym. pose proof (distance_symmetric info d) as Hd.
  destruct (window_cases info (optimal info + d)) as [Hin | Hout].
  - rewrite !calculate_parameter_impact_in_range;
      try exact Hv; try (unfold in_window in Hin; lra).
    unfold base_effect. now rewrite Hd.
  - rewrite !calculate_parameter_impact_outside; try exact Hv; try lra.
    unfold base_effect. now rewrite Hd.
Qed.

Lemma impact_symmetric_about_optimal_witness :
  calculate_parameter_impact (optimal t2_spec + 7) t2_spec
  = calculate_parameter_impact (optimal t2_spec - 7) t2_spec.
Proof.
  apply (impact_symmetric_about_optimal 7 t2_spec).
  - unfold valid_spec; simpl; lra.
  - simpl; lra.
Defined.

(** X7. On a valid row with [base_impact >= 0] whose optimum lies in the
    window, the impact never increases as the value moves away from the
    optimum on one side: of two values on the same side, the one further
    out gets an impact that is at most that of the nearer one. *)
Theorem impact_decreases_away_from_optimal
  (near far : R) (info : param_info) :
  valid_spec info -> 0 <= base_impact info -> optimal_in_window info ->
  between_optimal near far info ->
  exists impact_near impact_far,
    calculate_parameter_impact near info = Ok impact_near /\
    calculate_parameter_impact far info = Ok impact_far /\
    impact_far <= impact_near.
Proof.
  intros Hv Hb Hopt Hbetween. now apply impact_between_le.
Qed.

Lemma impact_decreases_away_from_optimal_witness :
  exists impact_near impact_far,
    calculate_parameter_impact 203 t2_spec = Ok impact_near /\
    calculate_parameter_impact 220 t2_spec = Ok impact_far /\
    impact_far <= impact_near.
Proof.
  apply (impact_decreases_away_from_optimal 203 220 t2_spec).
  - unfold valid_spec; simpl; lra.
  - simpl; lra.
  - unfold optimal_in_window; simpl; lra.
  - unfold between_optimal; simpl; lra.
Defined.

(** X8. Leaving the window costs the penalty at once: on a valid row with
    [base_impact >= 0], for a value inside the window (the edge itself, for
    one) and a value outside it further from the optimum on the same side,
    the outside impact is at most the inside impact scaled by the penalty
    factor [1 - 0.2 * min(distance, 1)] taken at the inside value. *)
Theorem leaving_window_costs_penalty (inside outside : R) (info : param_info) :
  valid_spec info -> 0 <= base_impact info ->
  in_window inside info -> ~ in_window outside info ->
  between_optimal inside outside info ->
  exists impact_in impact_out,
    calculate_parameter_impact inside info = Ok impact_in /\
    calculate_parameter_impact outside info = Ok impact_out /\
    impact_out
    <= impact_in * (1 - 0.2 * Rmin (normalized_distance inside info) 1).
Proof.
  intros Hv Hb Hin Hnot Hbetween.
  pose proof (between_distance_le info Hv inside outside Hbetween) as Hd.
  pose proof (base_effect_distance_le info Hv inside outside Hd) as He.
  pose proof (base_effect_pos info outside) as Hpos.
  pose proof (penalty_bounds info Hv outside) as Hpo.
  pose proof (penalty_bounds info Hv inside) as Hpi.
  pose proof (penalty_antitone info inside outside Hd) as Hp.
  assert (Hbe : base_impact info * base_effect outside info
                <= base_impact info * base_effect inside info)
    by (now apply Rmult_le_compat_l).
  assert (Hbpos : 0 <= base_impact info * base_effect outside info)
    by (apply Rmult_le_pos; lra).
  destruct (window_cases info outside) as [Hcontra | Hout];
    [contradiction |].
  do 2 eexists. split; [| split].
  - now apply calculate_parameter_impact_in_range.
  - now apply calculate_parameter_impact_outside.
  - set (x := base_impact info * base_effect outside info) in *.
    set (y := base_impact info * base_effect inside info) in *.
    set (p := 1 - 0.2 * Rmin (normalized_distance outside info) 1) in *.
    set (q := 1 - 0.2 * Rmin (normalized_distance inside info) 1) in *.
    apply Rle_trans with (x * q).
    + apply Rmult_le_compat_l; lra.
    + apply Rmult_le_compat_r; lra.
Qed.

Lemma leaving_window_costs_penalty_witness :
  exists impact_in impact_out,
    calculate_parameter_impact 205 t2_spec = Ok impact_in /\
    calculate_parameter_impact 206 t2_spec = Ok impact_out /\
    impact_out
    <= impact_in * (1 - 0.2 * Rmin (normalized_distance 205 t2_spec) 1).
Proof.
  apply (leaving_window_costs_penalty 205 206 t2_spec).
  - unfold valid_spec; simpl; lra.
  - simpl; lra.
  - unfold in_window; simpl; lra.
  - unfold in_window; simpl; lra.
  - unfold between_optimal; simpl; lra.
Defined.

(** X9. The impact dies off at least hyperbolically: on a valid row with
    [base_impact >= 0] the impact is at most
    [base_impact / (2 + normalized_distance / sensitivity)]. *)
Theorem impact_decay_bound (value : R) (info : param_info) :
  valid_spec info -> 0 <= base_impact info ->
  exists impact,
    calculate_parameter_impact value info = Ok impact /\
    impact
    <= base_impact info
       / (2 + normalized_distance value info / sensitivity info).
Proof.
  intros Hv Hb.
  destruct (calculate_parameter_impact_factor info Hv value)
    as (factor & Heq & Hf & _).
  pose proof (base_effect_decay value info Hv) as Hdecay.
  pose proof (base_effect_pos info value) as Hpos.
  eexists. split; [exact Heq |].
  set (e := base_effect value info) in *.
  set (bound := 1 / (2 + normalized_distance value info / sensitivity info))
    in *.
  replace (base_impact info
           / (2 + normalized_distance value info / sensitivity info))
    with (base_impact info * bound) by (unfold bound, Rdiv; ring).
  assert (base_impact info * e <= base_impact info * bound)
    by (now apply Rmult_le_compat_l).
  assert (0 <= base_impact info * e) by (apply Rmult_le_pos; lra).
  nra.
Qed.

Lemma impact_decay_bound_witness :
  exists impact,
    calculate_parameter_impact 220 t2_spec = Ok impact /\
    impact
    <= base_impact t2_spec
       / (2 + normalized_distance 220 t2_spec / sensitivity t2_spec).
Proof.
  apply (impact_decay_bound 220 t2_spec).
  - unfold valid_spec; simpl; lra.
  - simpl; lra.
Defined.

Lemma table_rows_shape (name : string) (info : param_info) :
  getitem OPTIMAL_RANGES name = Ok info ->
  min_val info < optimal info < max_val info /\
  optimal info - min_val info = max_val info - optimal info /\
  0 < sensitivity info < 1.
Proof.
  unfold OPTIMAL_RANGES. cbn [getitem].
  repeat (destruct (String.eqb _ name);
          [intros H; injection H as <-; simpl; lra |]).
  discriminate.
Qed.

Lemma table_row_impact (name : string) (info : param_info) (value : R) :
  getitem OPTIMAL_RANGES name = Ok info ->
  exists impact,
    calculate_parameter_impact value info = Ok impact /\
    0 <= impact <= base_impact info * 0.5.
Proof.
  intros Hrow.
  destruct (table_rows_valid name info Hrow) as [Hv Hb].
  destruct (calculate_parameter_impact_factor info Hv value)
    as (factor & Heq & Hf & _).
  pose proof (base_effect_pos info value) as Hpos.
  pose proof (base_effect_le_half info Hv value) as Hhalf.
  eexists. split; [exact Heq |].
  set (e := base_effect value info) in *.
  assert (0 <= base_impact info * e) by (apply Rmult_le_pos; lra).
  assert (base_impact info * e <= base_impact info * 0.5)
    by (apply Rmult_le_compat_l; lra).
  split; nra.
Qed.

(** X10. Every row of [OPTIMAL_RANGES] is well formed: the optimum is the
    midpoint of a proper window, the sensitivity lies strictly between 0
    and 1 and [base_impact] is positive.  So on a row of the table
    [calculate_parameter_impact] never raises, whatever the value, and its
    impact is non-negative and at most half of [base_impact]. *)
Theorem table_rows_never_raise (name : string) (info : param_info) (value : R) :
  getitem OPTIMAL_RANGES name = Ok info ->
  (min_val info < optimal info < max_val info /\
   optimal info - min_val info = max_val info - optimal info /\
   0 < sensitivity info < 1 /\ 0 < base_impact info) /\
  exists impact,
    calculate_parameter_impact value info = Ok impact /\
    0 <= impact <= base_impact info * 0.5.
Proof.
  intros Hrow.
  destruct (table_rows_valid name info Hrow) as [Hv Hb].
  destruct (table_rows_shape name info Hrow) as (Hw & Hmid & Hs).
  split; [tauto |]. now apply (table_row_impact name).
Qed.

Lemma table_rows_never_raise_witness :
  (min_val t2_spec < optimal t2_spec < max_val t2_spec /\
   optimal t2_spec - min_val t2_spec = max_val t2_spec - optimal t2_spec /\
   0 < sensitivity t2_spec < 1 /\ 0 < base_impact t2_spec) /\
  exists impact,
    calculate_parameter_impact 1000 t2_spec = Ok impact /\
    0 <= impact <= base_impact t2_spec * 0.5.
Proof.
  apply (table_rows_never_raise "t2" t2_spec 1000).
  reflexivity.
Defined.

(** ** When [calculate_total_conversion] raises, and what *)

Lemma has_key_true {V : Type} (d : dict V) (k : string) :
  has_key d k = true <-> In k (keys d).
Proof.
  unfold has_key. rewrite existsb_exists. split.
  - intros (x & Hx & Heq). apply String.eqb_eq in Heq. now subst.
  - intros Hin. exists k. split; [exact Hin | apply String.eqb_refl].
Qed.

Lemma has_key_false {V : Type} (d : dict V) (k : string) :
  has_key d k = false -> getitem d k = Raise (KeyError k).
Proof.
  intros H. apply getitem_missing. rewrite <- has_key_true. congruence.
Qed.

Lemma first_unknown_none (params : dict R) :
  first_unknown_key params = None <-> incl (keys params) PARAMETER_NAMES.
Proof.
  unfold first_unknown_key. split.
  - intros Hnone k Hk.
    pose proof (find_none _ _ Hnone k Hk) as Hneg.
    apply Bool.negb_false_iff in Hneg. now apply has_key_true in Hneg.
  - intros Hincl.
    destruct (find _ (keys params)) as [k |] eqn:Hfind; [| reflexivity].
    apply find_some in Hfind as [Hin Hneg].
    apply Bool.negb_true_iff in Hneg.
    apply Hincl, has_key_true in Hin.
    unfold PARAMETER_NAMES in Hin. congruence.
Qed.

Lemma impacts_of_first_unknown (items : dict R) (k : string) :
  first_unknown_key items = Some k ->
  impacts_of items = Raise (KeyError k).
Proof.
  unfold first_unknown_key.
  induction items as [| [name value] rest IH]; cbn [keys map fst find];
    [discriminate |].
  destruct (has_key OPTIMAL_RANGES name) eqn:Hname; cbn [negb].
  - intros Hfind. apply has_key_true in Hname.
    destruct (getitem_in OPTIMAL_RANGES name Hname) as [info Hinfo].
    destruct (table_rows_valid name info Hinfo) as [Hv _].
    destruct (calculate_parameter_impact_factor info Hv value)
      as (factor & Heq & _).
    cbn [impacts_of]. rewrite Hinfo. cbn [bind]. rewrite Heq. cbn [bind].
    unfold keys in IH. rewrite (IH Hfind). reflexivity.
  - intros Hfind. injection Hfind as <-.
    cbn [impacts_of]. rewrite (has_key_false _ _ Hname). reflexivity.
Qed.

Lemma impacts_of_ok (items : dict R) :
  incl (keys items) PARAMETER_NAMES ->
  exists impacts,
    impacts_of items = Ok impacts /\
    keys impacts = keys items /\
    Forall (fun impact => 0 <= impact) (values impacts).
Proof.
  induction items as [| [name value] rest IH]; intros Hincl.
  - exists []. repeat split. constructor.
  - destruct IH as (tail & Htail & Hkeys & Hpos).
    { intros k Hk. apply Hincl. now right. }
    assert (Hname : In name PARAMETER_NAMES) by (apply Hincl; now left).
    destruct (getitem_in OPTIMAL_RANGES name Hname) as [info Hinfo].
    destruct (table_row_impact name info value Hinfo)
      as (impact & Himpact & Hbound).
    exists ((name, impact) :: tail). split; [| split].
    + cbn [impacts_of]. rewrite Hinfo. cbn [bind]. rewrite Himpact.
      cbn [bind]. rewrite Htail. reflexivity.
    + cbn [keys map fst]. f_equal. exact Hkeys.
    + cbn [values map snd]. constructor; [lra | exact Hpos].
Qed.

Lemma impacts_of_ok_named (items impacts : dict R) :
  impacts_of items = Ok impacts -> incl (keys items) PARAMETER_NAMES.
Proof.
  intros Hok. apply first_unknown_none.
  destruct (first_unknown_key items) as [k |] eqn:Hfind; [| reflexivity].
  rewrite (impacts_of_first_unknown items k Hfind) in Hok. discriminate.
Qed.

Ltac read_aggregate key :=
  let E := fresh "E" in
  let v := fresh "v" in
  destruct (has_key _ key) eqn:E; cbn [negb find];
  [ apply has_key_true in E; apply getitem_in in E as [v E];
    rewrite E; cbn [bind]
  | let H := fresh "H" in
    intros H; injection H as <-;
    rewrite (has_key_false _ _ E); reflexivity ].

(** X11. [calculate_total_conversion] returns a result exactly when the
    parameter set holds the seven names read by the aggregates and every
    key of it is a row of the table; in every other case it raises. *)
Theorem total_conversion_succeeds_iff (params : dict R) :
  (exists conversion impacts,
     calculate_total_conversion params = Ok (conversion, impacts)) <->
  incl AGGREGATE_NAMES (keys params) /\ incl (keys params) PARAMETER_NAMES.
Proof.
  split.
  - intros (conversion & impacts & Hok).
    assert (Hagg : incl AGGREGATE_NAMES (keys params)).
    { intros k Hk.
      destruct (in_dec string_dec k (keys params)) as [Hin | Hnot];
        [exact Hin |].
      destruct (missing_aggregate_key params k Hk Hnot) as (k' & Hraise & _).
      rewrite Hraise in Hok. discriminate. }
    split; [exact Hagg |].
    rewrite (aggregates_inert params Hagg) in Hok.
    unfold calculate_total_conversion_no_aggregates in Hok.
    destruct (impacts_of params) as [found | e] eqn:Himp;
      [| discriminate].
    now apply (impacts_of_ok_named params found).
  - intros [Hagg Hnamed].
    destruct (impacts_of_ok params Hnamed) as (impacts & Himp & _).
    rewrite (aggregates_inert params Hagg).
    unfold calculate_total_conversion_no_aggregates. rewrite Himp.
    cbn [bind]. do 2 eexists. reflexivity.
Qed.

(** X12. The aggregate lookups come first: when one of the seven names is
    missing, the [KeyError] names the first missing one in the order
    top_pressure, bottom_pressure, t1, t2, t3, t4, t5, whatever else the
    parameter set holds or lacks. *)
Theorem first_missing_aggregate_is_raised (params : dict R) (k : string) :
  first_missing_aggregate params = Some k ->
  calculate_total_conversion params = Raise (KeyError k).
Proof.
  unfold first_missing_aggregate, AGGREGATE_NAMES, calculate_total_conversion.
  cbn [find].
  read_aggregate "top_pressure".
  read_aggregate "bottom_pressure".
  read_aggregate "t1".
  read_aggregate "t2".
  read_aggregate "t3".
  read_aggregate "t4".
  read_aggregate "t5".
  discriminate.
Qed.

Lemma first_missing_aggregate_is_raised_witness :
  calculate_total_conversion params_without_t1 = Raise (KeyError "t1").
Proof.
  apply (first_missing_aggregate_is_raised params_without_t1 "t1").
  reflexivity.
Defined.

(** X13. A key that is no row of the table is not skipped: when the seven
    aggregate names are present, the function raises [KeyError] for the
    first key of the parameter set, in iteration order, that the table does
    not have. *)
Theorem unknown_key_is_raised (params : dict R) (k : string) :
  incl AGGREGATE_NAMES (keys params) ->
  first_unknown_key params = Some k ->
  calculate_total_conversion params = Raise (KeyError k).
Proof.
  intros Hagg Hfind. rewrite (aggregates_inert params Hagg).
  unfold calculate_total_conversion_no_aggregates.
  rewrite (impacts_of_first_unknown params k Hfind). reflexivity.
Qed.

Lemma unknown_key_is_raised_witness :
  calculate_total_conversion params_with_stray_key
  = Raise (KeyError "catalyst_age").
Proof.
  apply (unknown_key_is_raised params_with_stray_key "catalyst_age").
  - intros k Hk. simpl in *. tauto.
  - reflexivity.
Defined.

(** ** The breakdown and the conversion of a successful call *)

Lemma getitem_breakdown (params items : dict R) (name : string) :
  In name (keys items) ->
  getitem (breakdown params items) name
  = Ok (payload (parameter_impact_of params name)).
Proof.
  induction items as [| [k v] rest IH]; cbn [keys map fst];
    [contradiction |].
  intros Hin. cbn [breakdown map fst getitem].
  destruct (String.eqb k name) eqn:E.
  - apply String.eqb_eq in E. now subst.
  - apply IH. destruct Hin as [-> | Hin]; [| exact Hin].
    rewrite String.eqb_refl in E. discriminate.
Qed.

Lemma py_sum_nonneg (xs : list R) :
  Forall (fun x => 0 <= x) xs -> 0 <= py_sum xs.
Proof.
  induction 1 as [| x xs Hx _ IH]; [unfold py_sum; simpl; lra |].
  rewrite py_sum_cons. lra.
Qed.

Lemma np_clip_above_zero (a : R) : 0 <= a -> np_clip a 0 100 = Rmin 100 a.
Proof. intros Ha. unfold np_clip. now rewrite Rmax_left. Qed.

Lemma np_clip_monotone (a b : R) : a <= b -> np_clip a 0 100 <= np_clip b 0 100.
Proof.
  intros Hab. unfold np_clip, Rmin, Rmax.
  destruct (Rle_dec a 0); destruct (Rle_dec b 0);
    repeat match goal with
           | |- context [Rle_dec ?x ?y] => destruct (Rle_dec x y)
           end; lra.
Qed.

(** X14. The breakdown of a successful call is itself a dict with the keys
    of the parameter set, in the same order, and reading it gives back, for
    every key, the impact of that parameter alone:
    [impacts[n] = calculate_parameter_impact(params[n], OPTIMAL_RANGES[n])];
    for any other name the read raises [KeyError]. *)
Theorem breakdown_lookup (params : dict R) :
  dict_wf params ->
  incl AGGREGATE_NAMES (keys params) -> incl (keys params) PARAMETER_NAMES ->
  exists conversion impacts,
    calculate_total_conversion params = Ok (conversion, impacts) /\
    keys impacts = keys params /\ dict_wf impacts /\
    (forall n, In n (keys params) ->
               exists impact,
                 getitem impacts n = Ok impact /\
                 parameter_impact_of params n = Ok impact) /\
    (forall n, ~ In n (keys params) ->
               getitem impacts n = Raise (KeyError n)).
Proof.
  intros Hwf Hagg Hnamed.
  exists (np_clip (60 + py_sum (values (breakdown params params))) 0 100),
         (breakdown params params).
  split; [now apply total_conversion_breakdown |].
  split; [apply keys_breakdown |]. split; [| split].
  - unfold dict_wf. now rewrite keys_breakdown.
  - intros n Hn. exists (payload (parameter_impact_of params n)). split.
    + now apply getitem_breakdown.
    + apply parameter_impact_of_ok; [exact Hn | now apply Hnamed].
  - intros n Hn. apply getitem_missing. now rewrite keys_breakdown.
Qed.

Lemma breakdown_lookup_witness :
  exists conversion impacts,
    calculate_total_conversion params_without_lhsv
    = Ok (conversion, impacts) /\
    keys impacts = keys params_without_lhsv /\ dict_wf impacts /\
    (forall n, In n (keys params_without_lhsv) ->
               exists impact,
                 getitem impacts n = Ok impact /\
                 parameter_impact_of params_without_lhsv n = Ok impact) /\
    (forall n, ~ In n (keys params_without_lhsv) ->
               getitem impacts n = Raise (KeyError n)).
Proof.
  apply (breakdown_lookup params_without_lhsv).
  - unfold dict_wf, keys, params_without_lhsv. simpl.
    repeat (constructor; [simpl; intuition discriminate |]). constructor.
  - intros k Hk. simpl in *. tauto.
  - intros k Hk. unfold PARAMETER_NAMES, keys, OPTIMAL_RANGES.
    simpl in *. tauto.
Defined.

Lemma total_conversion_formula (params : dict R) :
  incl AGGREGATE_NAMES (keys params) -> incl (keys params) PARAMETER_NAMES ->
  exists impacts,
    calculate_total_conversion params
    = Ok (np_clip (60 + py_sum (values impacts)) 0 100, impacts) /\
    Forall (fun impact => 0 <= impact) (values impacts) /\
    np_clip (60 + py_sum (values impacts)) 0 100
    = Rmin 100 (60 + py_sum (values impacts)) /\
    60 <= np_clip (60 + py_sum (values impacts)) 0 100 <= 100.
Proof.
  intros Hagg Hnamed.
  destruct (impacts_of_ok params Hnamed) as (impacts & Himp & Hkeys & Hpos).
  pose proof (py_sum_nonneg (values impacts) Hpos) as Hsum.
  exists impacts. split; [| split; [exact Hpos | split]].
  - rewrite (aggregates_inert params Hagg).
    unfold calculate_total_conversion_no_aggregates. rewrite Himp.
    reflexivity.
  - apply np_clip_above_zero. lra.
  - rewrite np_clip_above_zero by lra. unfold Rmin.
    destruct (Rle_dec 100 (60 + py_sum (values impacts))); lra.
Qed.

(** X15. In a successful call the lower clamp never acts: every entry of
    the breakdown is non-negative, and the conversion is
    [min(100, 60 + sum of the breakdown)], at least the base conversion 60
    and at most 100. *)
Theorem conversion_above_base (params : dict R) :
  incl AGGREGATE_NAMES (keys params) -> incl (keys params) PARAMETER_NAMES ->
  exists conversion impacts,
    calculate_total_conversion params = Ok (conversion, impacts) /\
    Forall (fun impact => 0 <= impact) (values impacts) /\
    conversion = Rmin 100 (60 + py_sum (values impacts)) /\
    60 <= conversion <= 100.
Proof.
  intros Hagg Hnamed.
  destruct (total_conversion_formula params Hagg Hnamed)
    as (impacts & Hcall & Hpos & Hmin & Hbound).
  exists (np_clip (60 + py_sum (values impacts)) 0 100), impacts.
  repeat split; try assumption; apply Hbound.
Qed.

Lemma conversion_above_base_witness :
  exists conversion impacts,
    calculate_total_conversion params_without_lhsv
    = Ok (conversion, impacts) /\
    Forall (fun impact => 0 <= impact) (values impacts) /\
    conversion = Rmin 100 (60 + py_sum (values impacts)) /\
    60 <= conversion <= 100.
Proof.
  apply (conversion_above_base params_without_lhsv).
  - intros k Hk. simpl in *. tauto.
  - intros k Hk. unfold PARAMETER_NAMES, keys, OPTIMAL_RANGES.
    simpl in *. tauto.
Defined.

(** ** Order of the entries, and moving towards the optimum *)

Lemma getitem_permutation (p q : dict R) (n : string) :
  dict_wf p -> Permutation p q -> In n (keys p) ->
  getitem q n = getitem p n.
Proof.
  intros Hwf Hperm Hin.
  assert (Hwfq : dict_wf q).
  { unfold dict_wf, keys in *.
    exact (Permutation_NoDup (Permutation_map fst Hperm) Hwf). }
  unfold keys in Hin. apply in_map_iff in Hin as ([k v] & Hk & Hitem).
  cbn [fst] in Hk. subst k.
  rewrite (getitem_of_item p n v Hwf Hitem).
  apply getitem_of_item; [exact Hwfq |].
  exact (Permutation_in _ Hperm Hitem).
Qed.

(** X16. The insertion order of the parameter set does not matter: two
    dicts with the same entries in different orders get the same
    conversion, and breakdowns with the same entries. *)
Theorem insertion_order_irrelevant (p q : dict R) :
  dict_wf p -> Permutation p q ->
  incl AGGREGATE_NAMES (keys p) -> incl (keys p) PARAMETER_NAMES ->
  exists conversion impacts_p impacts_q,
    calculate_total_conversion p = Ok (conversion, impacts_p) /\
    calculate_total_conversion q = Ok (conversion, impacts_q) /\
    Permutation impacts_p impacts_q.
Proof.
  intros Hwf Hperm Hagg Hnamed.
  assert (Hkeys : Permutation (keys p) (keys q))
    by (unfold keys; now apply Permutation_map).
  assert (Hwfq : dict_wf q)
    by (unfold dict_wf; exact (Permutation_NoDup Hkeys Hwf)).
  assert (Haggq : incl AGGREGATE_NAMES (keys q)).
  { intros k Hk. exact (Permutation_in k Hkeys (Hagg k Hk)). }
  assert (Hnamedq : incl (keys q) PARAMETER_NAMES).
  { intros k Hk. apply Hnamed.
    exact (Permutation_in k (Permutation_sym Hkeys) Hk). }
  assert (Hsame : breakdown q q = breakdown p q).
  { unfold breakdown. apply map_ext_in. intros [k v] Hitem. cbn [fst].
    f_equal. f_equal. unfold parameter_impact_of.
    rewrite (getitem_permutation p q k Hwf Hperm); [reflexivity |].
    apply (Permutation_in k (Permutation_sym Hkeys)).
    change k with (fst (k, v)). unfold keys. now apply in_map. }
  assert (Hbreak : Permutation (breakdown p p) (breakdown q q)).
  { rewrite Hsame. unfold breakdown. now apply Permutation_map. }
  exists (np_clip (60 + py_sum (values (breakdown p p))) 0 100),
         (breakdown p p), (breakdown q q).
  split; [now apply total_conversion_breakdown |]. split; [| exact Hbreak].
  rewrite (total_conversion_breakdown q Hwfq Hnamedq Haggq).
  assert (Hsum : py_sum (values (breakdown q q))
                 = py_sum (values (breakdown p p))).
  { apply py_sum_permutation. unfold values.
    apply Permutation_map, Permutation_sym, Hbreak. }
  now rewrite Hsum.
Qed.

Lemma insertion_order_irrelevant_witness :
  exists conversion impacts_p impacts_q,
    calculate_total_conversion optimal_params = Ok (conversion, impacts_p) /\
    calculate_total_conversion optimal_params_reversed
    = Ok (conversion, impacts_q) /\
    Permutation impacts_p impacts_q.
Proof.
  apply (insertion_order_irrelevant optimal_params optimal_params_reversed).
  - unfold dict_wf, keys, optimal_params. simpl.
    repeat (constructor; [simpl; intuition discriminate |]). constructor.
  - apply Permutation_rev.
  - intros k Hk. simpl in *. tauto.
  - intros k Hk. exact Hk.
Defined.

Lemma impacts_of_closer (near far : dict R) :
  closer_params near far ->
  exists impacts_near impacts_far,
    impacts_of near = Ok impacts_near /\
    impacts_of far = Ok impacts_far /\
    Forall2 (fun a b => fst a = fst b /\ snd b <= snd a)
            impacts_near impacts_far.
Proof.
  unfold closer_params.
  induction 1 as [| [k v] [k' w] near far [Hk (info & Hinfo & Hbetween)] _ IH].
  - exists [], []. repeat split. constructor.
  - cbn [fst snd] in *. subst k'.
    destruct IH as (tail_near & tail_far & Hnear & Hfar & Htail).
    destruct (table_rows_valid k info Hinfo) as [Hv Hb].
    destruct (table_rows_shape k info Hinfo) as (Hw & _).
    destruct (impact_between_le info Hv v w) as (x & y & Hx & Hy & Hle);
      [lra | unfold optimal_in_window; lra | exact Hbetween |].
    exists ((k, x) :: tail_near), ((k, y) :: tail_far).
    split; [| split].
    + cbn [impacts_of]. rewrite Hinfo. cbn [bind]. rewrite Hx. cbn [bind].
      rewrite Hnear. reflexivity.
    + cbn [impacts_of]. rewrite Hinfo. cbn [bind]. rewrite Hy. cbn [bind].
      rewrite Hfar. reflexivity.
    + constructor; [split; [reflexivity | exact Hle] | exact Htail].
Qed.

Lemma py_sum_pointwise (xs ys : dict R) :
  Forall2 (fun a b => fst a = fst b /\ snd b <= snd a) xs ys ->
  py_sum (values ys) <= py_sum (values xs).
Proof.
  induction 1 as [| a b xs ys [_ Hle] _ IH]; [lra |].
  cbn [values map]. rewrite !py_sum_cons. unfold values in IH. lra.
Qed.

Lemma closer_params_keys (near far : dict R) :
  closer_params near far -> keys far = keys near.
Proof.
  unfold closer_params.
  induction 1 as [| a b near far [Hk _] _ IH]; [reflexivity |].
  cbn [keys map]. unfold keys in IH. now rewrite Hk, IH.
Qed.

(** X17. Moving sliders towards their optima never lowers the prediction:
    if two parameter sets have the same keys and every value of the first
    lies between the row's optimum and the value of the second, then both
    calls succeed, every impact of the first is at least the matching
    impact of the second, and so is the conversion. *)
Theorem closer_to_optimum_never_lowers (near far : dict R) :
  closer_params near far -> incl AGGREGATE_NAMES (keys near) ->
  exists conversion_near conversion_far impacts_near impacts_far,
    calculate_total_conversion near = Ok (conversion_near, impacts_near) /\
    calculate_total_conversion far = Ok (conversion_far, impacts_far) /\
    Forall2 (fun a b => fst a = fst b /\ snd b <= snd a)
            impacts_near impacts_far /\
    conversion_far <= conversion_near.
Proof.
  intros Hcloser Hagg.
  destruct (impacts_of_closer near far Hcloser)
    as (impacts_near & impacts_far & Hnear & Hfar & Hpoint).
  assert (Haggfar : incl AGGREGATE_NAMES (keys far))
    by (now rewrite (closer_params_keys near far Hcloser)).
  exists (np_clip (60 + py_sum (values impacts_near)) 0 100),
         (np_clip (60 + py_sum (values impacts_far)) 0 100),
         impacts_near, impacts_far.
  split; [| split; [| split; [exact Hpoint |]]].
  - rewrite (aggregates_inert near Hagg).
    unfold calculate_total_conversion_no_aggregates. now rewrite Hnear.
  - rewrite (aggregates_inert far Haggfar).
    unfold calculate_total_conversion_no_aggregates. now rewrite Hfar.
  - apply np_clip_monotone.
    pose proof (py_sum_pointwise impacts_near impacts_far Hpoint). lra.
Qed.

Lemma closer_to_optimum_never_lowers_witness :
  exists conversion_near conversion_far impacts_near impacts_far,
    calculate_total_conversion optimal_params
    = Ok (conversion_near, impacts_near) /\
    calculate_total_conversion upper_params
    = Ok (conversion_far, impacts_far) /\
    Forall2 (fun a b => fst a = fst b /\ snd b <= snd a)
            impacts_near impacts_far /\
    conversion_far <= conversion_near.
Proof.
  apply (closer_to_optimum_never_lowers optimal_params upper_params).
  - unfold closer_params, optimal_params, upper_params, main_params.
    repeat (constructor;
            [split;
             [reflexivity
             | eexists; split;
               [reflexivity | unfold between_optimal; simpl; lra]] |]).
    constructor.
  - intros k Hk. simpl in *. tauto.
Defined.

(** ** The caller *)

Lemma read_impacts_breakdown (params items : dict R) (names : list string) :
  incl names (keys items) ->
  read_impacts (breakdown params items) names
  = Ok (map (fun n => payload (parameter_impact_of params n)) names).
Proof.
  induction names as [| n rest IH]; intros Hincl; [reflexivity |].
  cbn [read_impacts map].
  rewrite getitem_breakdown by (apply Hincl; now left). cbn [bind].
  rewrite IH by (intros k Hk; apply Hincl; now right). reflexivity.
Qed.

Lemma parameter_impact_of_nonneg (params : dict R) (name : string) :
  In name (keys params) -> In name PARAMETER_NAMES ->
  0 <= payload (parameter_impact_of params name).
Proof.
  intros Hkey Hname.
  destruct (getitem_in params name Hkey) as [value Hvalue].
  destruct (getitem_in OPTIMAL_RANGES name Hname) as [info Hinfo].
  destruct (table_row_impact name info value Hinfo)
    as (impact & Himpact & Hbound).
  unfold parameter_impact_of. rewrite Hvalue, Hinfo. cbn [bind].
  rewrite Himpact. cbn [payload]. lra.
Qed.

Lemma main_params_complete
  (t2 t3 t4 t1 t5 lhsv h2gly_ratio liquid_feed hydrogen_flow
   top_pressure bottom_pressure feed_ph : R) :
  complete (main_params t2 t3 t4 t1 t5 lhsv h2gly_ratio liquid_feed
                        hydrogen_flow top_pressure bottom_pressure feed_ph).
Proof. apply Permutation_refl. Qed.

(** X18. [main] cannot fail in the model, whatever the twelve sliders
    return: the dict it builds is complete, the call returns a conversion
    of at least 60 and at most 100, and each of the twelve reads
    [impacts[name]] finds its entry, the impact of that slider's value on
    that name's row, which is never negative (so the plus sign [main]
    prints in front of it is right). *)
Theorem main_report_never_raises
  (t2 t3 t4 t1 t5 lhsv h2gly_ratio liquid_feed hydrogen_flow
   top_pressure bottom_pressure feed_ph : R) :
  exists conversion shown,
    main_report t2 t3 t4 t1 t5 lhsv h2gly_ratio liquid_feed hydrogen_flow
                top_pressure bottom_pressure feed_ph
    = Ok (conversion, shown) /\
    60 <= conversion <= 100 /\
    Forall2 (fun name impact =>
               parameter_impact_of
                 (main_params t2 t3 t4 t1 t5 lhsv h2gly_ratio liquid_feed
                              hydrogen_flow top_pressure bottom_pressure
                              feed_ph) name = Ok impact /\
               0 <= impact)
            DISPLAYED_NAMES shown.
Proof.
  pose proof (main_params_complete t2 t3 t4 t1 t5 lhsv h2gly_ratio
                liquid_feed hydrogen_flow top_pressure bottom_pressure
                feed_ph) as Hc.
  unfold main_report.
  set (params := main_params t2 t3 t4 t1 t5 lhsv h2gly_ratio liquid_feed
                             hydrogen_flow top_pressure bottom_pressure
                             feed_ph) in *.
  pose proof (complete_wf params Hc) as Hwf.
  pose proof (complete_keys_named params Hc) as Hnamed.
  pose proof (complete_has_aggregates params Hc) as Hagg.
  destruct (total_conversion_formula params Hagg Hnamed)
    as (impacts & Hcall & _ & _ & Hbound).
  pose proof (total_conversion_breakdown params Hwf Hnamed Hagg) as Hexplicit.
  rewrite Hexplicit in Hcall.
  assert (Hconv : np_clip (60 + py_sum (values (breakdown params params)))
                          0 100
                  = np_clip (60 + py_sum (values impacts)) 0 100)
    by congruence.
  rewrite <- Hconv in Hbound.
  assert (Hshown : incl DISPLAYED_NAMES (keys params))
    by (intros k Hk; exact Hk).
  exists (np_clip (60 + py_sum (values (breakdown params params))) 0 100),
         (map (fun n => payload (parameter_impact_of params n))
              DISPLAYED_NAMES).
  split; [| split; [exact Hbound |]].
  - rewrite Hexplicit. cbn [bind fst snd].
    rewrite (read_impacts_breakdown params params DISPLAYED_NAMES Hshown).
    reflexivity.
  - apply Forall2_map_r. intros name Hname. split.
    + apply parameter_impact_of_ok; [now apply Hshown |].
      apply Hnamed. now apply Hshown.
    + apply parameter_impact_of_nonneg; [now apply Hshown |].
      apply Hnamed. now apply Hshown.
Qed.

(** X19. The sliders of [main] and the table agree: every slider's range
    contains the row's operating window and starts at the row's optimum;
    for liquid_feed, hydrogen_flow, top_pressure, bottom_pressure and
    feed_ph the range is the window itself, so no value such a slider can
    return is ever penalised. *)
Theorem sliders_cover_windows
  (name : string) (cfg : slider) (info : param_info) (value : R) :
  getitem SLIDERS name = Ok cfg ->
  getitem OPTIMAL_RANGES name = Ok info ->
  slider_min cfg <= value <= slider_max cfg ->
  (slider_min cfg <= min_val info /\ max_val info <= slider_max cfg /\
   slider_default cfg = optimal info) /\
  (In name WINDOW_SLIDER_NAMES ->
   in_window value info /\
   calculate_parameter_impact value info
   = Ok (base_impact info * base_effect value info)).
Proof.
  intros Hcfg Hinfo Hvalue.
  destruct (table_rows_valid name info Hinfo) as [Hv _].
  assert (Hwindow : In name WINDOW_SLIDER_NAMES -> in_window value info).
  { revert Hcfg Hinfo Hvalue.
    unfold SLIDERS, OPTIMAL_RANGES, in_window, WINDOW_SLIDER_NAMES.
    cbn [getitem].
    repeat (let E := fresh "E" in
            destruct (String.eqb _ name) eqn:E;
            [ apply String.eqb_eq in E; subst name;
              intros Hcfg Hinfo; injection Hcfg as <-; injection Hinfo as <-;
              simpl; intros Hvalue Hin;
              first [ lra | exfalso; intuition discriminate ]
            | clear E ]).
    discriminate. }
  split.
  - revert Hcfg Hinfo. unfold SLIDERS, OPTIMAL_RANGES. cbn [getitem].
    repeat (destruct (String.eqb _ name);
            [ intros Hcfg Hinfo; injection Hcfg as <-; injection Hinfo as <-;
              simpl; lra |]).
    discriminate.
  - intros Hin. specialize (Hwindow Hin). split; [exact Hwindow |].
    now apply calculate_parameter_impact_in_range.
Qed.

Lemma sliders_cover_windows_witness :
  (slider_min (mk_slider 6 8 7 (Some 0.1))
   <= min_val (mk_param_info 6 8 7 0.05 0.010348 5) /\
   max_val (mk_param_info 6 8 7 0.05 0.010348 5)
   <= slider_max (mk_slider 6 8 7 (Some 0.1)) /\
   slider_default (mk_slider 6 8 7 (Some 0.1))
   = optimal (mk_param_info 6 8 7 0.05 0.010348 5)) /\
  (In "feed_ph" WINDOW_SLIDER_NAMES ->
   in_window 6.3 (mk_param_info 6 8 7 0.05 0.010348 5) /\
   calculate_parameter_impact 6.3 (mk_param_info 6 8 7 0.05 0.010348 5)
   = Ok (base_impact (mk_param_info 6 8 7 0.05 0.010348 5)
         * base_effect 6.3 (mk_param_info 6 8 7 0.05 0.010348 5))).
Proof.
  apply (sliders_cover_windows "feed_ph").
  - reflexivity.
  - reflexivity.
  - simpl; lra.
Defined.
